(** * Static C/C++ analysis scripts: a shallow embedding and its properties

    The development follows the Python sources
      - [scripts/analyze_deps.py]       (layer fan-in / fan-out, instability),
      - [scripts/func_scanning.py]      (the lexical normalizer),
      - [scripts/cdep_analyzer.py]      (include resolution, cycle detection),
      - [analyzer/codebase_reviewer.py] (call graph, enum usage).

    Conventions.  Python [str] values are modelled as [list ascii]; the
    programs only ever compare characters with ASCII characters, and the
    character classes of [re] are modelled on the ASCII range.  A [dict]
    whose iteration order matters is an association list in insertion
    order; a [dict] or [set] that is only looked up is a [gmap]/[gset].
    Where Python iterates over a [set], the order is the one of [elements].
    Python exceptions and the fuel of recursive searches are explicit in
    the type [outcome]. *)

From Stdlib Require Import QArith Ascii String.
From stdpp Require Import gmap strings list.

Open Scope nat_scope.

(** ** Python strings *)

Abbreviation str := (list ascii).

Definition lit (s : string) : str := list_ascii_of_string s.

Definition dquote : ascii := ascii_of_nat 34.
Definition squote : ascii := "'"%char.
Definition backslash : ascii := "\"%char.
Definition newline : ascii := "010"%char.
Definition space : ascii := " "%char.
Definition slash : ascii := "/"%char.
Definition star : ascii := "*"%char.

(** [l[z]] with Python's negative indices; [None] is an [IndexError]. *)
Definition py_get {A} (l : list A) (z : Z) : option A :=
  if (0 <=? z)%Z then l !! Z.to_nat z
  else if (- Z.of_nat (length l) <=? z)%Z then l !! Z.to_nat (Z.of_nat (length l) + z)
  else None.

(** [l[i:j]] for non-negative [i], [j]. *)
Definition py_slice {A} (l : list A) (i j : nat) : list A := take (j - i) (drop i l).

(** [s.split(sep)] for a one-character [sep]. *)
Fixpoint split_char (sep : ascii) (s : str) : list str :=
  match s with
  | [] => [[]]
  | c :: s' =>
      if bool_decide (c = sep) then [] :: split_char sep s'
      else match split_char sep s' with
           | comp :: comps => (c :: comp) :: comps
           | [] => [[c]]
           end
  end.

(** [s.count(c)] for a one-character [c]. *)
Definition count_char (c : ascii) (s : str) : nat :=
  length (filter (fun x => x = c) s).

(** ** Python exceptions and bounded recursion *)

Inductive exn := KeyError | ValueError | IndexError.

Inductive outcome (A : Type) : Type :=
| Ok (a : A)
| Raise (e : exn)
| OutOfFuel.
Arguments Ok {A} a.
Arguments Raise {A} e.
Arguments OutOfFuel {A}.

#[global] Instance outcome_ret : MRet outcome := fun A a => Ok a.
#[global] Instance outcome_bind : MBind outcome := fun A B f c =>
  match c with
  | Ok a => f a
  | Raise e => Raise e
  | OutOfFuel => OutOfFuel
  end.

(** An [option] read as "value or exception [e]". *)
Definition or_raise {A} (e : exn) (o : option A) : outcome A :=
  match o with Some a => Ok a | None => Raise e end.

(** ** scripts/analyze_deps.py: stability metrics *)

Module AnalyzeDeps.

(** [fo / total if total > 0 else 0.0]: the quotient of two integers,
    taken here as an exact rational. *)
Definition instability (fi fo : nat) : Q :=
  let total := fi + fo in
  if 0 <? total then inject_Z (Z.of_nat fo) / inject_Z (Z.of_nat total) else 0.

(** [for src, targets in layer_deps.items(): fan_out[src] = len(targets)] *)
Definition fan_out (layer_deps : gmap string (gset string)) : gmap string nat :=
  size <$> layer_deps.

(** [for tgt in targets: fan_in[tgt] += 1], summed over all sources. *)
Definition fan_in_of (layer_deps : gmap string (gset string)) (layer : string) : nat :=
  length (filter (fun p : string * gset string => layer ∈ p.2) (map_to_list layer_deps)).

(** The value printed for [layer]: [fan_in.get(layer, 0)], [fan_out.get(layer, 0)]. *)
Definition layer_instability (layer_deps : gmap string (gset string)) (layer : string) : Q :=
  let fi := fan_in_of layer_deps layer in
  let fo := default 0 (fan_out layer_deps !! layer) in
  instability fi fo.

End AnalyzeDeps.

(** ** scripts/func_scanning.py: the lexical normalizer *)

Module FuncScanning.

(** The inner loop of the [//] branch:
    [while i < len(code) and code[i] != '\n': result.append(' '); i += 1].
    [rest] is [code[i:]]. *)
Fixpoint line_comment_loop (rest : str) (i : nat) (result : str) : nat * str :=
  match rest with
  | c :: rest' =>
      if bool_decide (c ≠ newline)
      then line_comment_loop rest' (S i) (result ++ [space])
      else (i, result)
  | [] => (i, result)
  end.

(** The inner loop of the [/*] branch:
    [while i < len(code) - 1 and code[i:i+2] != '*/':
       result.append(' ' if code[i] != '\n' else '\n'); i += 1].
    [rest] is [code[i:]]; [i < len(code) - 1] says it has two characters. *)
Fixpoint block_comment_loop (rest : str) (i : nat) (result : str) : nat * str :=
  match rest with
  | c :: (c' :: _) as rest' =>
      if bool_decide ([c; c'] ≠ [star; slash])
      then block_comment_loop rest' (S i)
             (result ++ [if bool_decide (c ≠ newline) then space else newline])
      else (i, result)
  | _ => (i, result)
  end.

Record lex_state := LexState {
  pos : nat;                     (* i *)
  in_string : bool;
  in_char : bool;
  string_char : option ascii;    (* None is Python's None *)
  result : str;
}.

(** One iteration of the outer [while i < len(code)] loop, for [i] in range. *)
Definition lex_step (code : str) (st : lex_state) : lex_state :=
  let i := pos st in
  let ci := code !! i in
  let prev := py_get code (Z.of_nat i - 1) in
  let blank1 ins inc sc :=
    LexState (i + 1) ins inc sc (result st ++ [space]) in
  (* Check for string start *)
  if negb (in_string st) && negb (in_char st)
     && bool_decide (ci = Some dquote)
     && (bool_decide (i = 0) || bool_decide (prev ≠ Some backslash))
  then blank1 true (in_char st) (Some dquote)
  else if negb (in_string st) && negb (in_char st)
     && bool_decide (ci = Some squote)
     && (bool_decide (i = 0) || bool_decide (prev ≠ Some backslash))
  then blank1 (in_string st) true (string_char st)
  (* Check for string end *)
  else if in_string st && bool_decide (ci = string_char st)
     && bool_decide (prev ≠ Some backslash)
  then blank1 false (in_char st) (string_char st)
  else if in_char st && bool_decide (ci = Some squote)
     && bool_decide (prev ≠ Some backslash)
  then blank1 (in_string st) false (string_char st)
  (* Skip content inside strings *)
  else if in_string st || in_char st
  then blank1 (in_string st) (in_char st) (string_char st)
  (* Check for single-line comment *)
  else if bool_decide (py_slice code i (i + 2) = [slash; slash])
  then
    let '(i', result') := line_comment_loop (drop i code) i (result st) in
    LexState i' (in_string st) (in_char st) (string_char st) result'
  (* Check for multi-line comment *)
  else if bool_decide (py_slice code i (i + 2) = [slash; star])
  then
    let '(i', result') :=
      block_comment_loop (drop (i + 2) code) (i + 2) (result st ++ [space; space]) in
    if i' <? length code - 1
    then LexState (i' + 2) (in_string st) (in_char st) (string_char st)
           (result' ++ [space; space])
    else LexState i' (in_string st) (in_char st) (string_char st) result'
  else
    LexState (i + 1) (in_string st) (in_char st) (string_char st)
      (result st ++ option_list ci).

(** [while i < len(code): ...]; [None] when the fuel runs out first. *)
Fixpoint lex_loop (fuel : nat) (code : str) (st : lex_state) : option lex_state :=
  if pos st <? length code then
    match fuel with
    | 0 => None
    | S fuel' => lex_loop fuel' code (lex_step code st)
    end
  else Some st.

Definition lex_init : lex_state := LexState 0 false false None [].

(** [CCodeParser._remove_comments_and_strings]; every iteration advances
    [i], so [len(code)] iterations are enough (see [lex_loop_total]). *)
Definition _remove_comments_and_strings (code : str) : option str :=
  result <$> lex_loop (length code) code lex_init.

(** Number of lines of a text, as [_get_line_number] counts them. *)
Definition line_count (s : str) : nat := count_char newline s + 1.

(** The positions holding a newline. *)
Definition newline_positions (s : str) : list nat :=
  filter (fun i => s !! i = Some newline) (seq 0 (length s)).

(** The output so far blanks a prefix of [code]: it has one character per
    input character read, each either a space or the input character. *)
Definition blanked (code : str) (i : nat) (res : str) : Prop :=
  length res = i ∧ i ≤ length code ∧
  ∀ j c, res !! j = Some c → c = space ∨ code !! j = Some c.

(** The invariant of the outer loop. *)
Definition lex_inv (code : str) (st : lex_state) : Prop :=
  blanked code (pos st) (result st).

(** A string literal continued over two lines: [s = Qa\], [bQ;] where [Q]
    is the double quote. *)
Definition continued_literal : str :=
  lit "s = " ++ [dquote] ++ lit "a\" ++ [newline] ++ lit "b" ++ [dquote] ++ lit ";".

(** The output so far, when the text has no quote character: it blanks a
    prefix of [code] and keeps every newline of that prefix. *)
Definition kept (code : str) (i : nat) (res : str) : Prop :=
  blanked code i res
  ∧ ∀ j, j < i → code !! j = Some newline → res !! j = Some newline.

(** The state the scan stays in when the text has no quote character. *)
Definition plain (code : str) (st : lex_state) : Prop :=
  in_string st = false ∧ in_char st = false ∧ kept code (pos st) (result st).

End FuncScanning.

(** ** Python's [re] module: the fragment the scripts use

    A backtracking matcher in continuation-passing style: alternation is
    ordered, repetition is greedy, a capture group keeps the span of its
    last successful match.  [Bol] is [^] under [re.MULTILINE], [Wordb] is
    [\b].  Every repeated sub-pattern of the scripts consumes at least one
    character, so the repetition counter of [Star] never cuts a match. *)

Module Re.

Inductive regex : Type :=
| Eps
| Cls (p : ascii → bool)
| Cat (r1 r2 : regex)
| Alt (r1 r2 : regex)
| Star (r : regex)
| Grp (n : nat) (r : regex)
| Bol
| Wordb.

Definition Plus (r : regex) : regex := Cat r (Star r).
Definition Opt (r : regex) : regex := Alt r Eps.
Definition Chr (c : ascii) : regex := Cls (fun x => bool_decide (x = c)).
Definition OneOf (cs : list ascii) : regex := Cls (fun x => bool_decide (x ∈ cs)).
Definition NoneOf (cs : list ascii) : regex := Cls (fun x => bool_decide (x ∉ cs)).
Definition seqs (rs : list regex) : regex := foldr Cat Eps rs.
Definition Lit (s : str) : regex := seqs (Chr <$> s).

Definition code_in (lo hi : nat) (c : ascii) : bool :=
  (lo <=? nat_of_ascii c) && (nat_of_ascii c <=? hi).

(** [\w]: letters, digits and the underscore. *)
Definition is_word (c : ascii) : bool :=
  code_in 97 122 c || code_in 65 90 c || code_in 48 57 c || bool_decide (c = "_"%char).

(** [\s], and the characters [str.strip()] removes. *)
Definition is_space (c : ascii) : bool :=
  code_in 9 13 c || code_in 28 32 c.

Definition w : regex := Cls is_word.
Definition sp : regex := Cls is_space.

Record mstate := MState {
  m_prev : option ascii;          (* the character before the cursor *)
  m_rest : str;                   (* the text from the cursor on *)
  m_pos : nat;                    (* the cursor *)
  m_groups : gmap nat (nat * nat) (* spans of the groups matched so far *)
}.

Definition at_bol (st : mstate) : bool :=
  match m_prev st with None => true | Some c => bool_decide (c = newline) end.

Definition at_wordb (st : mstate) : bool :=
  xorb (from_option is_word false (m_prev st))
       (from_option is_word false (head (m_rest st))).

Fixpoint mt (r : regex) (k : mstate → option mstate) (st : mstate) {struct r}
  : option mstate :=
  match r with
  | Eps => k st
  | Cls p =>
      match m_rest st with
      | c :: rest' =>
          if p c then k (MState (Some c) rest' (S (m_pos st)) (m_groups st)) else None
      | [] => None
      end
  | Cat r1 r2 => mt r1 (mt r2 k) st
  | Alt r1 r2 =>
      match mt r1 k st with
      | Some st' => Some st'
      | None => mt r2 k st
      end
  | Star r' =>
      (fix iter (n : nat) (st : mstate) {struct n} : option mstate :=
         match n with
         | 0 => k st
         | S n' =>
             match mt r' (fun st' => if m_pos st <? m_pos st' then iter n' st' else None) st with
             | Some st' => Some st'
             | None => k st
             end
         end) (length (m_rest st)) st
  | Grp n r' =>
      mt r' (fun st' => k (MState (m_prev st') (m_rest st') (m_pos st')
                             (<[n := (m_pos st, m_pos st')]> (m_groups st')))) st
  | Bol => if at_bol st then k st else None
  | Wordb => if at_wordb st then k st else None
  end.

(** A match object: the span of the whole match and of the groups. *)
Record match_obj := MatchObj {
  m_start : nat;
  m_end : nat;
  m_spans : gmap nat (nat * nat);
}.

(** Try the pattern at one position of the text. *)
Definition match_at (r : regex) (prev : option ascii) (rest : str) (pos : nat)
  : option match_obj :=
  (fun st => MatchObj pos (m_pos st) (m_groups st)) <$> mt r Some (MState prev rest pos ∅).

(** [pattern.match(s)] *)
Definition rmatch (r : regex) (s : str) : option match_obj := match_at r None s 0.

(** Leftmost match at or after the cursor. *)
Fixpoint search_from (r : regex) (prev : option ascii) (rest : str) (pos : nat)
  : option match_obj :=
  match match_at r prev rest pos with
  | Some m => Some m
  | None =>
      match rest with
      | [] => None
      | c :: rest' => search_from r (Some c) rest' (S pos)
      end
  end.

(** [pattern.search(s, pos)] *)
Definition search_at (r : regex) (s : str) (pos : nat) : option match_obj :=
  search_from r (if pos is 0 then None else s !! (pos - 1)) (drop pos s) pos.

Definition search (r : regex) (s : str) : option match_obj := search_at r s 0.

(** [pattern.finditer(s)]: successive non-overlapping leftmost matches. *)
Fixpoint finditer_from (fuel : nat) (r : regex) (s : str) (pos : nat) : list match_obj :=
  match fuel with
  | 0 => []
  | S fuel' =>
      if length s <? pos then [] else
      match search_at r s pos with
      | None => []
      | Some m =>
          m :: finditer_from fuel' r s (if m_start m <? m_end m then m_end m else S (m_end m))
      end
  end.

Definition finditer (r : regex) (s : str) : list match_obj :=
  finditer_from (S (length s)) r s 0.

(** [m.group(n)]; a group that took no part in the match gives [None]. *)
Definition group (s : str) (m : match_obj) (n : nat) : option str :=
  (fun sp => py_slice s sp.1 sp.2) <$> m_spans m !! n.

(** [s.strip()] *)
Fixpoint lstrip (s : str) : str :=
  match s with
  | c :: s' => if is_space c then lstrip s' else s
  | [] => []
  end.
Definition strip (s : str) : str := reverse (lstrip (reverse (lstrip s))).

End Re.

(** ** Python's [os.path] (POSIX flavour) *)

Module PosixPath.

Definition startswith (s p : str) : bool := bool_decide (p `prefix_of` s).
Definition endswith (s p : str) : bool := bool_decide (p `suffix_of` s).

(** [p.rfind('/') + 1] *)
Fixpoint rfind_sep1 (p : str) : nat :=
  match p with
  | [] => 0
  | c :: p' =>
      match rfind_sep1 p' with
      | 0 => if bool_decide (c = slash) then 1 else 0
      | S k => S (S k)
      end
  end.

(** [i = p.rfind(sep) + 1; return p[i:]] *)
Definition basename (p : str) : str := drop (rfind_sep1 p) p.

(** [s.rstrip('/')] *)
Fixpoint lstrip_sep (s : str) : str :=
  match s with
  | c :: s' => if bool_decide (c = slash) then lstrip_sep s' else s
  | [] => []
  end.
Definition rstrip_sep (s : str) : str := reverse (lstrip_sep (reverse s)).

(** [head = p[:i]; if head and head != sep*len(head): head = head.rstrip(sep)] *)
Definition dirname (p : str) : str :=
  let head := take (rfind_sep1 p) p in
  if bool_decide (head ≠ []) && bool_decide (head ≠ replicate (length head) slash)
  then rstrip_sep head else head.

(** [os.path.join(a, b)] *)
Definition join (a b : str) : str :=
  if startswith b [slash] then b
  else if bool_decide (a = []) || endswith a [slash] then a ++ b
  else a ++ [slash] ++ b.

(** [s.split('/')] *)
Definition split_sep (s : str) : list str := split_char slash s.

(** ['/'.join(comps)] *)
Fixpoint join_sep (comps : list str) : str :=
  match comps with
  | [] => []
  | [comp] => comp
  | comp :: comps' => comp ++ [slash] ++ join_sep comps'
  end.

Definition dot : str := lit ".".
Definition dotdot : str := lit "..".

(** The number [initial_slashes] of [normpath]: 0 (False), 1 (True) or 2. *)
Definition initial_slashes (path : str) : nat :=
  if startswith path [slash] then
    if startswith path [slash; slash] && negb (startswith path [slash; slash; slash])
    then 2 else 1
  else 0.

(** The body of [for comp in comps] in [normpath]. *)
Definition normpath_step (slashes : nat) (new_comps : list str) (comp : str) : list str :=
  if bool_decide (comp ∈ [[]; dot]) then new_comps
  else if bool_decide (comp ≠ dotdot)
       || (bool_decide (slashes = 0) && bool_decide (new_comps = []))
       || (bool_decide (new_comps ≠ []) && bool_decide (last new_comps = Some dotdot))
  then new_comps ++ [comp]
  else if bool_decide (new_comps ≠ []) then removelast new_comps
  else new_comps.

(** [os.path.normpath(path)] *)
Definition normpath (path : str) : str :=
  if bool_decide (path = []) then dot else
  let slashes := initial_slashes path in
  let comps := foldl (normpath_step slashes) [] (split_sep path) in
  let path' := replicate slashes slash ++ join_sep comps in
  if bool_decide (path' = []) then dot else path'.

(** A proper file name: not empty, not [.] and not [..]. *)
Definition file_name (b : str) : Prop := b ∉ [[]; dot; dotdot].

End PosixPath.

(** ** scripts/cdep_analyzer.py: the dependency scanner *)

Module CdepAnalyzer.
Import Re PosixPath.

Definition SYSTEM_HEADER_PREFIXES : list str := lit <$> [
  (* C standard library *)
  "stdio"; "stdlib"; "string"; "math"; "time"; "ctype"; "errno";
  "limits"; "stdbool"; "stdint"; "stddef"; "stdarg"; "signal";
  "assert"; "locale"; "setjmp"; "float"; "iso646"; "wchar"; "wctype";
  (* POSIX *)
  "sys/"; "unistd"; "fcntl"; "pthread"; "dirent"; "termios";
  (* C++ standard library *)
  "iostream"; "fstream"; "sstream"; "iomanip"; "vector"; "list";
  "map"; "set"; "unordered_map"; "unordered_set"; "array"; "deque";
  "queue"; "stack"; "algorithm"; "functional"; "iterator"; "memory";
  "utility"; "tuple"; "type_traits"; "chrono"; "ratio"; "thread";
  "mutex"; "condition_variable"; "future"; "atomic"; "regex";
  "random"; "numeric"; "complex"; "valarray"; "bitset"; "initializer_list";
  "typeinfo"; "typeindex"; "exception"; "stdexcept"; "new"; "limits";
  "climits"; "cfloat"; "cstdint"; "cstddef"; "cstdlib"; "cstring";
  "cmath"; "ctime"; "cctype"; "cerrno"; "cassert"; "cstdio"; "cstdarg";
  "csignal"; "clocale"; "csetjmp"; "cwchar"; "cwctype"; "cuchar";
  "cinttypes"; "cfenv"; "filesystem"; "optional"; "variant"; "any";
  "string_view"; "charconv"; "execution"; "span"; "ranges"; "format";
  "source_location"; "compare"; "version"; "numbers"; "bit"; "concepts";
  "coroutine"; "semaphore"; "latch"; "barrier"; "stop_token";
  (* Platform specific *)
  "windows"; "Windows"; "win32"; "Win32"; "windef"; "winbase";
  "OpenCL/"; "CL/"; "cuda"; "CUDA"; "vulkan"; "Vulkan";
  "gl/"; "GL/"; "glm/"; "GLFW/"; "SDL"; "X11/"; "Cocoa/";
  (* Common third-party *)
  "boost/"; "gtest/"; "gmock/"; "catch"; "doctest"; "json";
  "rapidjson/"; "nlohmann/"; "fmt/"; "spdlog/"; "eigen"; "Eigen/"
]%string.

(** [s.startswith(prefixes)] for a tuple of prefixes. *)
Definition startswith_any (s : str) (prefixes : list str) : bool :=
  existsb (startswith s) prefixes.

(** An entry of [info['raw_includes']]. *)
Record include := Include {
  path : str;
  is_system : bool;
}.

(** A value of [self.files], with its key [rel_path].  [content] is what
    reading [full_path] gives, [None] when it raises [IOError]/[OSError];
    [is_header] is set by [_find_files] from the extension. *)
Record file_info := FileInfo {
  rel_path : str;
  content : option str;
  is_header : bool;
  raw_includes : list include;
  line_count : nat;
}.

(** The scanner object.  [files] is the dict in insertion (discovery)
    order; the three [defaultdict(set)] are maps to sets, a missing key
    standing for the empty set. *)
Record scanner := Scanner {
  include_system : bool;
  files : list file_info;
  dependencies : gmap str (gset str);
  reverse_deps : gmap str (gset str);
  unresolved : gmap str (gset str);
}.

(** [DependencyScanner(root_path, include_system=...)] after [_find_files]
    discovered [discovered] (path, content, header flag), in that order. *)
Definition discovered_file (f : str * option str * bool) : file_info :=
  FileInfo f.1.1 f.1.2 f.2 [] 0.

Definition init (include_system : bool) (discovered : list (str * option str * bool))
  : scanner :=
  Scanner include_system (discovered_file <$> discovered) ∅ ∅ ∅.

(** [d[k].add(v)] on a [defaultdict(set)] *)
Definition add_to (d : gmap str (gset str)) (k v : str) : gmap str (gset str) :=
  <[k := {[v]} ∪ default ∅ (d !! k)]> d.

(** [d.get(k, set())] *)
Definition get_set (d : gmap str (gset str)) (k : str) : gset str :=
  default ∅ (d !! k).

(** [k in self.files] *)
Definition in_files (fs : list file_info) (k : str) : bool :=
  bool_decide (k ∈ (rel_path <$> fs)).

(** [^\s*#\s*include\s+([<Q])([^>Q]+)[>Q]] with [re.MULTILINE], where [Q]
    stands for the double quote. *)
Definition include_pattern : regex :=
  seqs [Bol; Star sp; Chr "#"; Star sp; Lit (lit "include"); Plus sp;
        Grp 1 (OneOf ["<"%char; dquote]);
        Grp 2 (Plus (NoneOf [">"%char; dquote]));
        OneOf [">"%char; dquote]].

(** The body of [for match in self.include_pattern.finditer(content)]. *)
Definition parse_match (include_system : bool) (text : str)
    (raw : list include) (m : match_obj) : list include :=
  let bracket_type := default [] (group text m 1) in
  let include_path := default [] (group text m 2) in
  let is_system := bool_decide (bracket_type = lit "<") in
  if is_system && negb include_system && startswith_any include_path SYSTEM_HEADER_PREFIXES
  then raw
  else raw ++ [Include include_path is_system].

(** The body of [for rel_path, info in self.files.items()] in
    [_parse_includes]; an unreadable file only prints a warning. *)
Definition parse_file (include_system : bool) (info : file_info) : file_info :=
  match content info with
  | Some text =>
      FileInfo (rel_path info) (content info) (is_header info)
        (foldl (parse_match include_system text) (raw_includes info)
           (finditer include_pattern text))
        (count_char newline text + 1)
  | None => info
  end.

Definition _parse_includes (sc : scanner) : scanner :=
  Scanner (include_system sc) (parse_file (include_system sc) <$> files sc)
    (dependencies sc) (reverse_deps sc) (unresolved sc).

(** [filename_map]: basename -> the scanned paths with that basename, in
    discovery order ([filename_map[filename].append(rel_path)]). *)
Definition filename_map (fs : list file_info) : gmap str (list str) :=
  foldl (fun fm rp => <[basename rp := default [] (fm !! basename rp) ++ [rp]]> fm)
    ∅ (rel_path <$> fs).

(** The three attempts of [_resolve_dependencies] for one include; the
    value of [resolved] when [if resolved:] is reached. *)
Definition resolve (fs : list file_info) (fm : gmap str (list str))
    (file_dir inc_path : str) : option str :=
  let resolved : option str := None in
  (* 1. Relative to current file *)
  let candidate := normpath (join file_dir inc_path) in
  let resolved := if in_files fs candidate then Some candidate else resolved in
  (* 2. From project root *)
  let resolved :=
    match resolved with
    | None => if in_files fs inc_path then Some inc_path else resolved
    | Some _ => resolved
    end in
  (* 3. By filename match *)
  match resolved with
  | None =>
      let candidates := default [] (fm !! basename inc_path) in
      if length candidates =? 1 then head candidates
      else if 1 <? length candidates then
        match List.find (fun c => endswith c inc_path) candidates with
        | Some c => Some c
        | None => head candidates
        end
      else None
  | Some _ => resolved
  end.

(** [if resolved:] -- [None] and the empty string are false. *)
Definition truthy (resolved : option str) : bool :=
  match resolved with
  | Some (_ :: _) => true
  | _ => false
  end.

(** The body of [for inc in info['raw_includes']]. *)
Definition resolve_include (fs : list file_info) (fm : gmap str (list str))
    (rp file_dir : str) (sc : scanner) (inc : include) : scanner :=
  let resolved := resolve fs fm file_dir (path inc) in
  if truthy resolved then
    let target := default [] resolved in
    Scanner (include_system sc) (files sc)
      (add_to (dependencies sc) rp target)
      (add_to (reverse_deps sc) target rp)
      (unresolved sc)
  else if negb (is_system inc) then
    Scanner (include_system sc) (files sc) (dependencies sc) (reverse_deps sc)
      (add_to (unresolved sc) rp (path inc))
  else sc.

(** The body of [for rel_path, info in self.files.items()]. *)
Definition resolve_file (fs : list file_info) (fm : gmap str (list str))
    (sc : scanner) (info : file_info) : scanner :=
  foldl (resolve_include fs fm (rel_path info) (dirname (rel_path info)))
    sc (raw_includes info).

Definition _resolve_dependencies (sc : scanner) : scanner :=
  foldl (resolve_file (files sc) (filename_map (files sc))) sc (files sc).

(** The resolution rule in the words of the specification: the path
    relative to the including file's directory, else the path from the
    project root, else the scanned files sharing the basename -- the only
    one, else the first that ends with the include path, else the first in
    discovery order. *)
Definition basename_candidates (fs : list file_info) (inc_path : str) : list str :=
  filter (fun rp => basename rp = basename inc_path) (rel_path <$> fs).

Definition resolve_spec (fs : list file_info) (file_dir inc_path : str) : option str :=
  let relative := normpath (join file_dir inc_path) in
  if bool_decide (relative ∈ (rel_path <$> fs)) then Some relative
  else if bool_decide (inc_path ∈ (rel_path <$> fs)) then Some inc_path
  else match basename_candidates fs inc_path with
       | [] => None
       | [c] => Some c
       | c :: cs =>
           match List.find (fun c' => endswith c' inc_path) (c :: cs) with
           | Some c' => Some c'
           | None => Some c
           end
       end.

(** An include path that matches no scanned file, under none of the three
    rules. *)
Definition matches_no_file (fs : list file_info) (file_dir inc_path : str) : Prop :=
  (normpath (join file_dir inc_path) ∉ (rel_path <$> fs))
  ∧ (inc_path ∉ (rel_path <$> fs))
  ∧ (∀ rp, rp ∈ (rel_path <$> fs) → basename rp ≠ basename inc_path).

(** The includes in the order [_resolve_dependencies] visits them, each
    with the key of its file. *)
Definition include_work (fs : list file_info) : list (str * include) :=
  fs ≫= (fun info => (fun inc => (rel_path info, inc)) <$> raw_includes info).

Definition resolution_of (fs : list file_info) (w : str * include) : option str :=
  resolve fs (filename_map fs) (dirname w.1) (path w.2).

Definition resolve_work (fs : list file_info) (sc : scanner) (w : str * include) : scanner :=
  resolve_include fs (filename_map fs) w.1 (dirname w.1) sc w.2.

(** The edge an include contributes when its resolution is accepted, and
    the unresolved entry it contributes otherwise. *)
Definition edge_of (fs : list file_info) (w : str * include) (s t : str) : Prop :=
  w.1 = s ∧ resolution_of fs w = Some t ∧ t ≠ [].

Definition unresolved_by (fs : list file_info) (w : str * include) (s p : str) : Prop :=
  w.1 = s ∧ truthy (resolution_of fs w) = false ∧ is_system w.2 = false ∧ path w.2 = p.

(** [DependencyScanner.scan], after [_find_files]. *)
Definition scan (sc : scanner) : scanner :=
  _resolve_dependencies (_parse_includes sc).

(** [len(self.unresolved[f])], the per-file unresolved-include count. *)
Definition unresolved_count (sc : scanner) (f : str) : nat :=
  size (get_set (unresolved sc) f).

(** *** Cycle detection *)

(** Lexicographic [<] on strings, by character code. *)
Fixpoint str_ltb (a b : str) : bool :=
  match a, b with
  | _, [] => false
  | [], _ :: _ => true
  | x :: a', y :: b' =>
      (nat_of_ascii x <? nat_of_ascii y)
      || (bool_decide (x = y) && str_ltb a' b')
  end.

(** [min(l)]; [None] is the [ValueError] on an empty list. *)
Definition py_min (l : list str) : option str :=
  match l with
  | [] => None
  | x :: l' => Some (foldl (fun m y => if str_ltb y m then y else m) x l')
  end.

(** [l.index(x)]; [None] is the [ValueError] when [x] is absent. *)
Definition py_index (x : str) (l : list str) : option nat :=
  fst <$> list_find (fun y => y = x) l.

(** The variables [visited], [rec_stack], [path] that [dfs] closes over. *)
Record dfs_state := DfsState {
  visited : gset str;
  rec_stack : gset str;
  dfs_path : list str;
}.

(** The nested function [dfs(node)].  It returns the cycle found (or
    [None]) together with the closed-over state as it leaves it.
    [fuel] bounds the recursion depth. *)
Fixpoint dfs (fuel : nat) (deps : gmap str (gset str)) (node : str) (st : dfs_state)
  : outcome (option (list str) * dfs_state) :=
  match fuel with
  | 0 => OutOfFuel
  | S fuel' =>
      let st := DfsState ({[node]} ∪ visited st) ({[node]} ∪ rec_stack st)
                  (dfs_path st ++ [node]) in
      (fix neighbors (ns : list str) (st : dfs_state) {struct ns}
         : outcome (option (list str) * dfs_state) :=
         match ns with
         | [] =>
             (* path.pop(); rec_stack.remove(node); return None *)
             Ok (None, DfsState (visited st) (rec_stack st ∖ {[node]})
                         (removelast (dfs_path st)))
         | neighbor :: ns' =>
             if bool_decide (neighbor ∉ visited st) then
               r ← dfs fuel' deps neighbor st;
               match r.1 with
               | Some (x :: cycle) => Ok (Some (x :: cycle), r.2)
               | _ => neighbors ns' r.2
               end
             else if bool_decide (neighbor ∈ rec_stack st) then
               cycle_start ← or_raise ValueError (py_index neighbor (dfs_path st));
               Ok (Some (drop cycle_start (dfs_path st) ++ [neighbor]), st)
             else neighbors ns' st
         end) (elements (get_set deps node)) st
  end.

(** The normalization of a found cycle: rotate it to start at its
    smallest element. *)
Definition normalize (cycle : list str) : outcome (list str) :=
  smallest ← or_raise ValueError (py_min (removelast cycle));
  min_idx ← or_raise ValueError (py_index smallest cycle);
  first ← or_raise IndexError (cycle !! min_idx);
  Ok (drop min_idx (removelast cycle) ++ take min_idx cycle ++ [first]).

(** The body of [for node in self.files]. *)
Definition find_cycles_step (fuel : nat) (deps : gmap str (gset str))
    (acc : list (list str) * dfs_state) (node : str)
  : outcome (list (list str) * dfs_state) :=
  let '(cycles, st) := acc in
  if bool_decide (node ∉ visited st) then
    r ← dfs fuel deps node st;
    match r.1 with
    | Some (x :: cycle) =>
        normalized ← normalize (x :: cycle);
        if bool_decide (normalized ∉ cycles)
        then Ok (cycles ++ [normalized], r.2)
        else Ok (cycles, r.2)
    | _ => Ok (cycles, r.2)
    end
  else Ok (cycles, st).

Fixpoint find_cycles_loop (fuel : nat) (deps : gmap str (gset str))
    (nodes : list str) (acc : list (list str) * dfs_state)
  : outcome (list (list str) * dfs_state) :=
  match nodes with
  | [] => Ok acc
  | node :: nodes' =>
      acc' ← find_cycles_step fuel deps acc node;
      find_cycles_loop fuel deps nodes' acc'
  end.

(** [DependencyScanner.find_cycles].  Every node [dfs] enters is new to
    [visited], and after [scan] every node is a scanned file, so the calls
    nest at most [len(self.files)] deep. *)
Definition find_cycles (sc : scanner) : outcome (list (list str)) :=
  r ← find_cycles_loop (S (length (files sc)))
        (dependencies sc) (rel_path <$> files sc) ([], DfsState ∅ ∅ []);
  Ok r.1.

(** [(a, b)] is an edge of the include graph. *)
Definition is_edge (sc : scanner) (a b : str) : Prop :=
  b ∈ get_set (dependencies sc) a.

(** [cycle] is a closed walk of the include graph. *)
Definition closed_walk (sc : scanner) (cycle : list str) : Prop :=
  head cycle = last cycle ∧
  ∀ i a b, cycle !! i = Some a → cycle !! (S i) = Some b → is_edge sc a b.

(** The dict [get_stats] returns. *)
Record scan_stats := ScanStats {
  total_files : nat;
  header_files : nat;
  source_files : Z;
  total_lines : nat;
  total_dependencies : nat;
  files_with_deps : nat;
  unresolved_includes : nat;
}.

(** [sum(len(d) for d in m.values())] *)
Definition total_size (m : gmap str (gset str)) : nat :=
  map_fold (fun _ d acc => size d + acc) 0 m.

(** [DependencyScanner.get_stats] *)
Definition get_stats (sc : scanner) : scan_stats :=
  let total_files := length (files sc) in
  let headers := length (filter (fun f => is_header f = true) (files sc)) in
  let sources := (Z.of_nat total_files - Z.of_nat headers)%Z in
  let total_lines := foldr (fun f acc => line_count f + acc) 0 (files sc) in
  let total_deps := total_size (dependencies sc) in
  ScanStats total_files headers sources total_lines total_deps
    (size (dependencies sc)) (total_size (unresolved sc)).

(** No entry of a table is an empty set. *)
Definition no_empty_entry (d : gmap str (gset str)) : Prop :=
  ∀ k s, d !! k = Some s → s ≠ ∅.

(** What holds of the search state between calls, for nodes drawn from a
    finite set [U]: the stack set is within the path and within [visited],
    the path is within [visited], and [visited] is within [U]. *)
Definition dfs_inv (U : gset str) (st : dfs_state) : Prop :=
  (∀ x, x ∈ rec_stack st → x ∈ dfs_path st)
  ∧ rec_stack st ⊆ visited st
  ∧ (∀ x, x ∈ dfs_path st → x ∈ visited st)
  ∧ visited st ⊆ U.

(** A list that starts and ends with the same node, all of its nodes in [U]. *)
Definition closed_in (U : gset str) (c : list str) : Prop :=
  ∃ n mid, c = n :: mid ++ [n] ∧ n ∈ U ∧ ∀ x, x ∈ mid → x ∈ U.

(** What [dfs] guarantees about its result and the state it leaves. *)
Definition dfs_post (U : gset str) (node : str) (st : dfs_state)
    (r : option (list str) * dfs_state) : Prop :=
  dfs_inv U r.2 ∧ visited st ⊆ visited r.2 ∧ node ∈ visited r.2
  ∧ match r.1 with
    | None => rec_stack r.2 = rec_stack st ∧ dfs_path r.2 = dfs_path st
    | Some c => closed_in U c
    end.

(** A returned cycle: closed, within [U], and starting at a smallest node. *)
Definition normal_cycle (U : gset str) (c : list str) : Prop :=
  ∃ n mid, c = n :: mid ++ [n] ∧ n ∈ U
           ∧ (∀ x, x ∈ mid → x ∈ U) ∧ (∀ x, x ∈ mid → str_ltb x n = false).

(** The invariant of the loop over the neighbours of [node], entered from
    the state [st]. *)
Definition in_loop (U : gset str) (node : str) (st st' : dfs_state) : Prop :=
  dfs_inv U st'
  ∧ dfs_path st' = dfs_path st ++ [node]
  ∧ rec_stack st' = {[node]} ∪ rec_stack st
  ∧ {[node]} ∪ visited st ⊆ visited st'.

(** Every node of the list has the next one among its dependencies. *)
Fixpoint chain (deps : gmap str (gset str)) (l : list str) : Prop :=
  match l with
  | x :: l' =>
      match l' with
      | y :: _ => y ∈ get_set deps x ∧ chain deps l'
      | [] => True
      end
  | [] => True
  end.

(** The search state while no cycle has been returned: the stack set is the
    set of the path, the path is a chain of dependencies, and the stack is
    within [visited]. *)
Definition clean (deps : gmap str (gset str)) (st : dfs_state) : Prop :=
  rec_stack st = list_to_set (dfs_path st)
  ∧ chain deps (dfs_path st)
  ∧ rec_stack st ⊆ visited st.

(** [node] can be entered from the end of the path. *)
Definition enters (deps : gmap str (gset str)) (st : dfs_state) (node : str) : Prop :=
  match last (dfs_path st) with
  | Some p => node ∈ get_set deps p
  | None => True
  end.

(** What [dfs] returns from a clean state. *)
Definition dfs_clean_post (deps : gmap str (gset str)) (st : dfs_state)
    (r : option (list str) * dfs_state) : Prop :=
  match r.1 with
  | None => rec_stack r.2 = rec_stack st ∧ dfs_path r.2 = dfs_path st
            ∧ visited st ⊆ visited r.2
  | Some c => c ≠ [] ∧ head c = last c ∧ chain deps c
  end.

(** The loop over the neighbours of [node], entered from a clean [st]. *)
Definition clean_loop (deps : gmap str (gset str)) (node : str) (st st' : dfs_state)
  : Prop :=
  clean deps st'
  ∧ dfs_path st' = dfs_path st ++ [node]
  ∧ rec_stack st' = {[node]} ∪ rec_stack st
  ∧ {[node]} ∪ visited st ⊆ visited st'.

(** A closed chain: what a genuine cycle of the graph is. *)
Definition closed_chain (deps : gmap str (gset str)) (c : list str) : Prop :=
  head c = last c ∧ chain deps c.

(** What the outer loop keeps: while no cycle has been found the state is
    as at the start; afterwards the first cycle found is a closed chain. *)
Definition first_ok (deps : gmap str (gset str)) (acc : list (list str) * dfs_state)
  : Prop :=
  match acc.1 with
  | [] => dfs_path acc.2 = [] ∧ rec_stack acc.2 = ∅
  | c :: _ => closed_chain deps c
  end.

End CdepAnalyzer.

(** ** analyzer/codebase_reviewer.py: call graph and enum usage *)

Module CodebaseReviewer.
Import Re CdepAnalyzer.

(** Keywords to ignore as function calls *)
Definition C_KEYWORDS : list str := lit <$> [
  "if"; "else"; "for"; "while"; "do"; "switch"; "case"; "default";
  "return"; "break"; "continue"; "goto"; "sizeof"; "typeof";
  "struct"; "union"; "enum"; "typedef"; "const"; "static"; "extern";
  "inline"; "volatile"; "register"; "auto"; "signed"; "unsigned";
  "void"; "char"; "short"; "int"; "long"; "float"; "double";
  "NULL"; "true"; "false"
]%string.

(** [PATTERNS['func_def']], [re.MULTILINE]: at the start of a line, the
    optional prefixes [static\s+], [inline\s+], [const\s+]; group 1, the
    return type, [\w+] followed by any number of stars, each after optional
    white space; [\s+]; group 2, the name [\w+]; [\s*]; an opening
    parenthesis; group 3, the parameters, any characters but a closing
    parenthesis; a closing parenthesis; [\s*]; an opening brace. *)
Definition func_def : regex :=
  seqs [Bol;
        Opt (seqs [Lit (lit "static"); Plus sp]);
        Opt (seqs [Lit (lit "inline"); Plus sp]);
        Opt (seqs [Lit (lit "const"); Plus sp]);
        Grp 1 (seqs [Plus w; Star (seqs [Star sp; Chr "*"])]);
        Plus sp; Grp 2 (Plus w); Star sp;
        Chr "("; Grp 3 (Star (NoneOf [")"%char])); Chr ")"; Star sp; Chr "{"].

(** [PATTERNS['func_call']]: [\b], group 1 [\w+], [\s*], an opening
    parenthesis. *)
Definition func_call : regex := seqs [Wordb; Grp 1 (Plus w); Star sp; Chr "("].

(** A value of [self.functions]. *)
Record func_info := FuncInfo {
  name : str;
  file : str;
  return_type : str;
  params : str;
  calls : gset str;
  called_by : gset str;
}.

(** The state of a [CallGraphAnalyzer]. *)
Record call_graph := CallGraph {
  functions : gmap str func_info;
  call_edges : list (str * str);
  file_functions : gmap str (list str);
}.

Definition empty_graph : call_graph := CallGraph ∅ [] ∅.

(** The entry [_find_definitions] builds from one match; [None] when the
    name is a keyword ([continue]). *)
Definition definition_of (text file_path : str) (m : match_obj) : option func_info :=
  let return_type := strip (default [] (group text m 1)) in
  let name := strip (default [] (group text m 2)) in
  let params := strip (default [] (group text m 3)) in
  if bool_decide (name ∈ C_KEYWORDS) then None
  else Some (FuncInfo name file_path return_type params ∅ ∅).

(** [self.functions[name] = {...}; self.file_functions[file_path].append(name)] *)
Definition record_definition (file_path : str) (cg : call_graph) (d : func_info)
  : call_graph :=
  CallGraph (<[name d := d]> (functions cg)) (call_edges cg)
    (<[file_path := default [] (file_functions cg !! file_path) ++ [name d]]>
       (file_functions cg)).

(** [CallGraphAnalyzer._find_definitions] *)
Definition _find_definitions (text file_path : str) (cg : call_graph) : call_graph :=
  foldl (fun cg m =>
           match definition_of text file_path m with
           | Some d => record_definition file_path cg d
           | None => cg
           end)
    cg (finditer func_def text).

(** The body of [for call_match in PATTERNS['func_call'].finditer(line)];
    [self.functions[current_func]] raises [KeyError] on an unknown name. *)
Definition record_call (line current_func : str) (cg : call_graph) (m : match_obj)
  : outcome call_graph :=
  let callee := default [] (group line m 1) in
  if bool_decide (callee ∈ C_KEYWORDS) then Ok cg
  else if bool_decide (callee = current_func) then Ok cg
  else match functions cg !! callee with
       | None => Ok cg
       | Some _ =>
           caller_info ← or_raise KeyError (functions cg !! current_func);
           let fns := <[current_func :=
                          FuncInfo (name caller_info) (file caller_info)
                            (return_type caller_info) (params caller_info)
                            ({[callee]} ∪ calls caller_info) (called_by caller_info)]>
                        (functions cg) in
           callee_info ← or_raise KeyError (fns !! callee);
           let fns := <[callee :=
                          FuncInfo (name callee_info) (file callee_info)
                            (return_type callee_info) (params callee_info)
                            (calls callee_info) ({[current_func]} ∪ called_by callee_info)]>
                        fns in
           Ok (CallGraph fns (call_edges cg ++ [(current_func, callee)])
                 (file_functions cg))
       end.

Fixpoint record_calls (line current_func : str) (cg : call_graph) (ms : list match_obj)
  : outcome call_graph :=
  match ms with
  | [] => Ok cg
  | m :: ms' =>
      cg' ← record_call line current_func cg m;
      record_calls line current_func cg' ms'
  end.

(** The loop [for i, line in enumerate(lines)] of [_find_calls]. *)
Fixpoint find_calls_lines (lines : list str) (current_func : option str)
    (cg : call_graph) : outcome call_graph :=
  match lines with
  | [] => Ok cg
  | line :: lines' =>
      match rmatch func_def line with
      | Some m =>
          (* this line starts a function definition: [continue] *)
          find_calls_lines lines' (Some (strip (default [] (group line m 2)))) cg
      | None =>
          match current_func with
          | None => find_calls_lines lines' current_func cg
          | Some cf =>
              cg' ← record_calls line cf cg (finditer func_call line);
              find_calls_lines lines' current_func cg'
          end
      end
  end.

(** [CallGraphAnalyzer._find_calls] *)
Definition _find_calls (text file_path : str) (cg : call_graph) : outcome call_graph :=
  find_calls_lines (split_char newline text) None cg.

(** First pass of [CallGraphAnalyzer.scan]; unreadable files are skipped. *)
Definition first_pass (fs : list file_info) (cg : call_graph) : call_graph :=
  foldl (fun cg info =>
           match content info with
           | Some text => _find_definitions text (rel_path info) cg
           | None => cg
           end) cg fs.

(** Second pass: headers and unreadable files are skipped. *)
Fixpoint second_pass (fs : list file_info) (cg : call_graph) : outcome call_graph :=
  match fs with
  | [] => Ok cg
  | info :: fs' =>
      if is_header info then second_pass fs' cg
      else match content info with
           | Some text =>
               cg' ← _find_calls text (rel_path info) cg;
               second_pass fs' cg'
           | None => second_pass fs' cg
           end
  end.

(** [CallGraphAnalyzer(scanner).scan()] *)
Definition scan_calls (sc : scanner) : outcome call_graph :=
  second_pass (files sc) (first_pass (files sc) empty_graph).

(** The function definitions in the order the first pass meets them. *)
Definition definitions_in (text file_path : str) : list func_info :=
  omap (definition_of text file_path) (finditer func_def text).

Definition scanned_definitions (fs : list file_info) : list func_info :=
  fs ≫= (fun info =>
           match content info with
           | Some text => definitions_in text (rel_path info)
           | None => []
           end).

(** One step of the definition table: [self.functions[name] = {...}]. *)
Definition insert_definition (m : gmap str func_info) (d : func_info) : gmap str func_info :=
  <[name d := d]> m.

(** *** Enum usage ([InterfaceScanner._scan_usage]) *)

(** An entry of [self.enums]. *)
Record enum_def := EnumDef {
  enum_name : str;
  enum_file : str;
  values : list str;
}.

Definition anonymous : str := lit "(anonymous)".

(** [{e['name'] for e in self.enums if e['name'] != '(anonymous)'}] *)
Definition enum_names (enums : list enum_def) : gset str :=
  list_to_set (filter (fun n => n ≠ anonymous) (enum_name <$> enums)).

(** [r'\b' + re.escape(enum_name) + r'\b']: the name, taken literally,
    between word boundaries. *)
Definition enum_pattern (enum_name : str) : regex :=
  seqs [Wordb; Lit enum_name; Wordb].

(** [self.enum_usage[enum_name][rel_path]['refs']]; both levels are
    [defaultdict]s, a missing entry reads as 0. *)
Definition refs (enum_usage : gmap str (gmap str nat)) (e f : str) : nat :=
  default 0 (default ∅ (enum_usage !! e) !! f).

(** [self.enum_usage[enum_name][rel_path]['refs'] += 1] *)
Definition add_ref (enum_usage : gmap str (gmap str nat)) (e f : str)
  : gmap str (gmap str nat) :=
  <[e := <[f := refs enum_usage e f + 1]> (default ∅ (enum_usage !! e))]> enum_usage.

(** The body of [for enum_name in enum_names]. *)
Definition scan_enum (text rp : str) (enum_usage : gmap str (gmap str nat))
    (enum_name : str) : gmap str (gmap str nat) :=
  match search (enum_pattern enum_name) text with
  | Some _ => add_ref enum_usage enum_name rp
  | None => enum_usage
  end.

(** The enum part of the body of [for rel_path, info in
    self.scanner.files.items()]; the struct part of that body writes
    [self.struct_usage] only.  An unreadable file is passed over. *)
Definition scan_usage_file (names : gset str) (enum_usage : gmap str (gmap str nat))
    (info : file_info) : gmap str (gmap str nat) :=
  match content info with
  | Some text => foldl (scan_enum text (rel_path info)) enum_usage (elements names)
  | None => enum_usage
  end.

(** [InterfaceScanner._scan_usage], as far as [self.enum_usage] goes,
    starting from the empty table of [__init__]. *)
Definition _scan_usage (sc : scanner) (enums : list enum_def) : gmap str (gmap str nat) :=
  foldl (scan_usage_file (enum_names enums)) ∅ (files sc).

(** Whether [re.search] finds the enum name in a text. *)
Definition found_in (text : str) (e : str) : bool :=
  bool_decide (is_Some (search (enum_pattern e) text)).

(** What one file adds to the count of the pair [(e, f)], and what a list
    of files adds. *)
Definition file_refs (names : gset str) (info : file_info) (e f : str) : nat :=
  match content info with
  | Some text =>
      if bool_decide (f = rel_path info ∧ e ∈ names) && found_in text e then 1 else 0
  | None => 0
  end.

Fixpoint total_refs (names : gset str) (fs : list file_info) (e f : str) : nat :=
  match fs with
  | [] => 0
  | info :: fs' => file_refs names info e f + total_refs names fs' e f
  end.

End CodebaseReviewer.

(** ** Concrete inputs used as witnesses *)

Module Scenarios.
Import CdepAnalyzer CodebaseReviewer.
(** The line [#include Qp.hQ] (Q the double quote) and the line [#include <p.h>]. *)
Definition include_quote (p : string) : str :=
  lit "#include " ++ [dquote] ++ lit p ++ [dquote] ++ [newline].
Definition include_angle (p : string) : str :=
  lit "#include <" ++ lit p ++ lit ">" ++ [newline].

(** Scenario A: [a.h] without includes, [b.c] including [a.h]. *)
Definition scenario_A : list (str * option str * bool) :=
  [(lit "a.h", Some [], true); (lit "b.c", Some (include_quote "a.h"), false)].

(** Scenario E: a file including [missing.h], which is not scanned. *)
Definition scenario_E : list (str * option str * bool) :=
  [(lit "main.c", Some (include_quote "missing.h"), false)].

(** A project with its own [list.h], included with angle brackets. *)
Definition own_list_header : list (str * option str * bool) :=
  [(lit "src/main.c", Some (include_angle "list.h"), false);
   (lit "include/list.h", Some [], true)].

(** The same header included in quote form from another directory. *)
Definition own_list_header_quoted : list (str * option str * bool) :=
  [(lit "src/main.c", Some (include_quote "list.h"), false);
   (lit "include/list.h", Some [], true)].

(** The record [_parse_includes] leaves for the file of scenario E. *)
Definition scenario_E_file : file_info :=
  FileInfo (lit "main.c") (Some (include_quote "missing.h")) false
    [Include (lit "missing.h") false] 2.

Definition quoted_main_file : file_info :=
  FileInfo (lit "src/main.c") (Some (include_quote "list.h")) false
    [Include (lit "list.h") false] 2.
(** Three headers: [a.h] and [b.h] include each other, [c.h] includes
    [a.h]; discovered in this order. *)
Definition stale_stack : list (str * option str * bool) :=
  [(lit "a.h", Some (include_quote "b.h"), true);
   (lit "b.h", Some (include_quote "a.h"), true);
   (lit "c.h", Some (include_quote "a.h"), true)].

(** Scenario D as the specification writes it, on two lines, and with the
    body of [Foo] on lines of its own. *)
Definition scenario_D : str :=
  lit "void Foo() { Bar(); }" ++ [newline] ++ lit "void Bar() {}" ++ [newline].
Definition scenario_D_lines : str :=
  lit "void Foo() {" ++ [newline] ++ lit "    Bar();" ++ [newline] ++ lit "}" ++ [newline]
  ++ lit "void Bar() {}" ++ [newline].

(** Two source files that both define [init]; the second defines [stop]
    after it. *)
Definition init_in_a : str := lit "int init(void) {" ++ [newline] ++ lit "}" ++ [newline].
Definition init_in_b : str :=
  lit "long init(int a) {" ++ [newline] ++ lit "}" ++ [newline]
  ++ lit "void stop(void) {" ++ [newline] ++ lit "}" ++ [newline].
Definition two_inits : list file_info :=
  [FileInfo (lit "a.c") (Some init_in_a) false [] 0;
   FileInfo (lit "b.c") (Some init_in_b) false [] 0].
Definition init_a : func_info := FuncInfo (lit "init") (lit "a.c") (lit "int") (lit "void") ∅ ∅.
Definition init_b : func_info := FuncInfo (lit "init") (lit "b.c") (lit "long") (lit "int a") ∅ ∅.
Definition stop_b : func_info := FuncInfo (lit "stop") (lit "b.c") (lit "void") (lit "void") ∅ ∅.

(** An enum named four times in one file and never in another. *)
Definition color_enum : enum_def :=
  EnumDef (lit "Color") (lit "color.h") [lit "RED"; lit "GREEN"].
Definition color_text : str :=
  lit "Color a = RED;" ++ [newline] ++ lit "Color b = GREEN;" ++ [newline]
  ++ lit "Color c = (Color)0;" ++ [newline].
Definition color_files : list (str * option str * bool) :=
  [(lit "color.h", Some (lit "enum Color { RED, GREEN };"), true);
   (lit "paint.c", Some color_text, false);
   (lit "plain.c", Some (lit "int x;"), false)].
End Scenarios.

(** * Properties *)

(** ** Stability metrics *)

Section Instability.
Import AnalyzeDeps.

Lemma instability_range (fi fo : nat) : (0 <= instability fi fo <= 1)%Q.
Proof.
  unfold instability. cbv zeta.
  destruct (0 <? fi + fo) eqn:Hpos.
  - apply Nat.ltb_lt in Hpos.
    assert (Ht : (0 < inject_Z (Z.of_nat (fi + fo)))%Q).
    { change 0%Q with (inject_Z 0). rewrite <- Zlt_Qlt. lia. }
    split.
    + apply Qle_shift_div_l; [exact Ht|].
      rewrite Qmult_0_l. change 0%Q with (inject_Z 0). rewrite <- Zle_Qle. lia.
    + apply Qle_shift_div_r; [exact Ht|].
      rewrite Qmult_1_l. rewrite <- Zle_Qle. lia.
  - split; [apply Qle_refl | discriminate].
Qed.

(** The bounds hold for the value computed for every layer of every
    layer graph. *)
Lemma layer_instability_bounds (layer_deps : gmap string (gset string)) (layer : string) :
  (0 <= layer_instability layer_deps layer <= 1)%Q.
Proof. apply instability_range. Qed.

(** C9: for every node, with fan-in [fi] and fan-out [fo], the instability
    [fo / (fi + fo)] lies between 0 and 1, and a node with neither
    incoming nor outgoing edges has instability exactly 0. *)
Theorem instability_bounds (fi fo : nat) :
  (0 <= instability fi fo <= 1)%Q ∧ instability 0 0 = 0%Q.
Proof. split; [apply instability_range | reflexivity]. Qed.

End Instability.

(** ** The lexical normalizer *)

Section Normalizer.
Import FuncScanning.
Variable code : str.

Local Abbreviation blanked := (FuncScanning.blanked code).
Local Abbreviation lex_inv := (FuncScanning.lex_inv code).

Lemma drop_cons_inv (i : nat) (c : ascii) (rest : str) :
  drop i code = c :: rest → code !! i = Some c ∧ drop (S i) code = rest ∧ i < length code.
Proof.
  intros H. assert (Hc : code !! i = Some c).
  { rewrite <- (Nat.add_0_r i), <- lookup_drop, H. done. }
  split; [done|]. split.
  - replace (S i) with (i + 1) by lia. rewrite <- drop_drop, H. done.
  - by eapply lookup_lt_Some.
Qed.

Lemma blanked_snoc (i : nat) (res : str) (c : ascii) :
  blanked i res → i < length code → (c = space ∨ code !! i = Some c) →
  blanked (S i) (res ++ [c]).
Proof.
  intros (Hl & Hi & Hp) Hlt Hc. split; [|split].
  - rewrite length_app. simpl. lia.
  - lia.
  - intros j d Hj. apply lookup_app_Some in Hj as [Hj | [Hge Hj]]; [by eauto|].
    rewrite Hl in Hge, Hj. destruct (j - i) as [|k] eqn:Hk; simpl in Hj; [|done].
    assert (j = i) as -> by lia. by simplify_eq.
Qed.

Lemma line_comment_loop_blanked (rest : str) (i : nat) (res : str) :
  drop i code = rest → blanked i res →
  blanked (line_comment_loop rest i res).1 (line_comment_loop rest i res).2
  ∧ i ≤ (line_comment_loop rest i res).1.
Proof.
  revert i res. induction rest as [|c rest IH]; intros i res Hd Hb; simpl; [by auto|].
  apply drop_cons_inv in Hd as (Hc & Hd & Hlt).
  case_bool_decide; simpl; [|by auto].
  destruct (IH (S i) (res ++ [space]) Hd) as [H1 H2].
  { apply blanked_snoc; auto. }
  split; [done | lia].
Qed.

Lemma line_comment_loop_advance (c : ascii) (rest : str) (i : nat) (res : str) :
  drop i code = c :: rest → c ≠ newline → blanked i res →
  i < (line_comment_loop (c :: rest) i res).1.
Proof.
  intros Hd Hc Hb. simpl. rewrite bool_decide_eq_true_2 by done.
  apply drop_cons_inv in Hd as (Hci & Hd & Hlt).
  destruct (line_comment_loop_blanked rest (S i) (res ++ [space]) Hd) as [_ H].
  { apply blanked_snoc; auto. }
  lia.
Qed.

Lemma block_comment_loop_blanked (rest : str) (i : nat) (res : str) :
  drop i code = rest → blanked i res →
  blanked (block_comment_loop rest i res).1 (block_comment_loop rest i res).2
  ∧ i ≤ (block_comment_loop rest i res).1
  ∧ ((block_comment_loop rest i res).1 < length code - 1 →
     (block_comment_loop rest i res).1 + 2 ≤ length code).
Proof.
  revert i res. induction rest as [|c rest IH]; intros i res Hd Hb; simpl.
  { split; [done|]. split; [done|]. lia. }
  destruct rest as [|c' rest'].
  { simpl. split; [done|]. split; [done|]. lia. }
  apply drop_cons_inv in Hd as (Hc & Hd & Hlt).
  case_bool_decide; simpl.
  - assert (Hb' : blanked (S i)
      (res ++ [if bool_decide (c ≠ newline) then space else newline])).
    { apply blanked_snoc; [done..|]. case_bool_decide as Hn; [by left|]. right.
      destruct (decide (c = newline)) as [->|Hne]; [done|]. by destruct Hn. }
    destruct (IH (S i) _ Hd Hb') as (H1 & H2 & H3).
    simpl in H1, H2, H3.
    split; [done|]. split; [lia|done].
  - split; [done|]. split; [done|]. lia.
Qed.

Lemma py_slice_two (i : nat) (a b : ascii) :
  py_slice code i (i + 2) = [a; b] →
  ∃ rest, drop i code = a :: b :: rest.
Proof.
  unfold py_slice. replace (i + 2 - i) with 2 by lia.
  destruct (drop i code) as [|x [|y rest]]; simpl; intros H; simplify_eq. eauto.
Qed.

Lemma lex_step_inv (st : lex_state) :
  lex_inv st → pos st < length code →
  lex_inv (lex_step code st) ∧ pos st < pos (lex_step code st).
Proof.
  intros Hinv Hlt. unfold lex_inv in *.
  assert (Hblank : ∀ a b c,
    lex_inv (LexState (pos st + 1) a b c (result st ++ [space]))
    ∧ pos st < pos (LexState (pos st + 1) a b c (result st ++ [space]))).
  { intros. unfold lex_inv. simpl. rewrite Nat.add_1_r. split; [|lia].
    apply blanked_snoc; auto. }
  unfold lex_step. cbv zeta.
  do 5 (match goal with |- context [if ?b then _ else _] => destruct b end;
        [by apply Hblank|]).
  destruct (decide (py_slice code (pos st) (pos st + 2) = [slash; slash])) as [Hs1|Hs1];
    [rewrite bool_decide_eq_true_2 by done | rewrite bool_decide_eq_false_2 by done].
  { apply py_slice_two in Hs1 as [rest Hd].
    pose proof (line_comment_loop_blanked _ _ _ Hd Hinv) as [H1 _].
    pose proof (line_comment_loop_advance _ _ _ _ Hd ltac:(done) Hinv) as H2.
    destruct (line_comment_loop (drop (pos st) code) (pos st) (result st)) as [i' r'] eqn:E.
    rewrite Hd in E. rewrite E in H1, H2. simpl in *. done. }
  destruct (decide (py_slice code (pos st) (pos st + 2) = [slash; star])) as [Hs2|Hs2];
    [rewrite bool_decide_eq_true_2 by done | rewrite bool_decide_eq_false_2 by done].
  { apply py_slice_two in Hs2 as [rest Hd].
    assert (Hd2 : drop (pos st + 2) code = rest).
    { rewrite <- drop_drop, Hd. done. }
    assert (Hlen : pos st + 2 ≤ length code).
    { apply (f_equal length) in Hd. rewrite length_drop in Hd. simpl in Hd. lia. }
    assert (Hb2 : blanked (pos st + 2) (result st ++ [space; space])).
    { replace (pos st + 2) with (S (S (pos st))) by lia.
      change [space; space] with ([space] ++ [space]). rewrite app_assoc.
      apply blanked_snoc; [|lia|by left].
      apply blanked_snoc; [done|lia|by left]. }
    pose proof (block_comment_loop_blanked _ _ _ eq_refl Hb2) as (H1 & H2 & H3).
    rewrite Hd2 in *.
    destruct (block_comment_loop rest (pos st + 2) (result st ++ [space; space]))
      as [i' r'] eqn:E. simpl in *.
    destruct (i' <? length code - 1) eqn:Hi'; simpl.
    - apply Nat.ltb_lt in Hi'. specialize (H3 Hi'). split; [|lia].
      replace (i' + 2) with (S (S i')) by lia.
      change [space; space] with ([space] ++ [space]). rewrite app_assoc.
      apply blanked_snoc; [|lia|by left].
      apply blanked_snoc; [done|lia|by left].
    - split; [done|lia]. }
  simpl. rewrite Nat.add_1_r. split; [|lia].
  destruct (code !! pos st) as [c|] eqn:Hc; simpl.
  - apply blanked_snoc; auto.
  - apply lookup_ge_None in Hc. lia.
Qed.

Lemma lex_loop_inv (fuel : nat) (st : lex_state) :
  lex_inv st → length code ≤ pos st + fuel →
  ∃ st', lex_loop fuel code st = Some st' ∧ lex_inv st' ∧ pos st' = length code.
Proof.
  revert st. induction fuel as [|fuel IH]; intros st Hinv Hf; simpl.
  - destruct (pos st <? length code) eqn:Hlt.
    + apply Nat.ltb_lt in Hlt. lia.
    + apply Nat.ltb_ge in Hlt. exists st. destruct Hinv as (? & ? & ?).
      repeat split; auto. lia.
  - destruct (pos st <? length code) eqn:Hlt.
    + apply Nat.ltb_lt in Hlt.
      destruct (lex_step_inv st Hinv Hlt) as [Hinv' Hadv].
      apply IH; [done | lia].
    + apply Nat.ltb_ge in Hlt. exists st. destruct Hinv as (? & ? & ?).
      repeat split; auto. lia.
Qed.
End Normalizer.

Section NormalizerResults.
Import FuncScanning.

(** The loop always runs to its end: the fuel [len(code)] is enough. *)
Lemma lex_loop_total (code : str) : is_Some (_remove_comments_and_strings code).
Proof.
  unfold _remove_comments_and_strings.
  destruct (lex_loop_inv code (length code) lex_init) as (st' & -> & _).
  - repeat split; simpl; [lia|]. intros j c Hj. done.
  - simpl. lia.
  - by eexists.
Qed.

(** The output has the length of the input, and each of its characters is
    a space or the input character at that place. *)
Lemma remove_blanks (code out : str) :
  _remove_comments_and_strings code = Some out →
  length out = length code ∧
  ∀ j c, out !! j = Some c → c = space ∨ code !! j = Some c.
Proof.
  unfold _remove_comments_and_strings. intros H.
  destruct (lex_loop_inv code (length code) lex_init) as (st' & E & (Hl & _ & Hp) & Hpos).
  - repeat split; simpl; [lia|]. intros j c Hj. done.
  - simpl. lia.
  - rewrite E in H. simpl in H. simplify_eq. split; [lia | done].
Qed.

(** A newline of the output is a newline of the input: no line break is
    invented. *)
Lemma remove_newline_from_input (code out : str) (j : nat) :
  _remove_comments_and_strings code = Some out →
  out !! j = Some newline → code !! j = Some newline.
Proof.
  intros H Hj. destruct (remove_blanks code out H) as [_ Hp].
  by destruct (Hp j newline Hj) as [Hs|Hc].
Qed.

(** C3: the normalizer keeps the length of every text, but not its line
    structure: on a string literal that runs over a line break the output
    has the newline blanked, so the line count drops from 2 to 1 and the
    newline position 7 is lost; and on an unterminated block comment the
    last character inside the comment is left unblanked. *)
Theorem normalizer_loses_newline_in_literal :
  (∃ out, _remove_comments_and_strings continued_literal = Some out
          ∧ length out = length continued_literal
          ∧ line_count continued_literal = 2 ∧ line_count out = 1
          ∧ newline_positions continued_literal = [7]
          ∧ newline_positions out = [])
  ∧ _remove_comments_and_strings (lit "/*a") = Some (lit "  a").
Proof.
  split; [|by vm_compute].
  eexists. split; [by vm_compute|]. by vm_compute.
Qed.

End NormalizerResults.

(** ** Paths *)

Section Paths.
Import PosixPath.

Lemma split_char_nonempty (sep : ascii) (s : str) : split_char sep s ≠ [].
Proof.
  destruct s as [|c s]; simpl; [done|].
  case_bool_decide; [done|]. by destruct (split_char sep s).
Qed.

Lemma split_char_app_sep (sep : ascii) (x y : str) :
  split_char sep (x ++ sep :: y) = split_char sep x ++ split_char sep y.
Proof.
  induction x as [|c x IH]; simpl.
  - by rewrite bool_decide_eq_true_2.
  - rewrite IH. case_bool_decide; [done|].
    pose proof (split_char_nonempty sep x).
    by destruct (split_char sep x).
Qed.

Lemma split_char_no_sep (sep : ascii) (s : str) : sep ∉ s → split_char sep s = [s].
Proof.
  induction s as [|c s IH]; intros Hs; simpl; [done|].
  apply not_elem_of_cons in Hs as [Hc Hs].
  rewrite bool_decide_eq_false_2 by done. by rewrite IH.
Qed.

Lemma split_char_components (sep : ascii) (s comp : str) :
  comp ∈ split_char sep s → sep ∉ comp.
Proof.
  revert comp. induction s as [|c s IH]; intros comp; simpl.
  - intros ->%list_elem_of_singleton. apply not_elem_of_nil.
  - case_bool_decide as Hc.
    + intros [->|Hin]%elem_of_cons; [apply not_elem_of_nil | by apply IH].
    + destruct (split_char sep s) as [|h t] eqn:E.
      * intros ->%list_elem_of_singleton. apply not_elem_of_cons. split; [done|apply not_elem_of_nil].
      * intros [->|Hin]%elem_of_cons.
        -- apply not_elem_of_cons. split; [done|]. apply IH. by left.
        -- apply IH. by right.
Qed.

Lemma rfind_sep1_split (p : str) :
  last (split_sep p) = Some (basename p)
  ∧ (rfind_sep1 p = 0 → split_sep p = [p])
  ∧ (rfind_sep1 p ≠ 0 → 2 ≤ length (split_sep p)).
Proof.
  unfold split_sep, basename.
  induction p as [|c p (IH1 & IH2 & IH3)]; simpl.
  { split; [done|]. split; [done|lia]. }
  destruct (rfind_sep1 p) as [|k] eqn:Hr.
  - rewrite (IH2 eq_refl). case_bool_decide; simpl.
    + split; [done|]. split; [done|lia].
    + split; [done|]. split; [done|lia].
  - specialize (IH3 ltac:(lia)). simpl. 
    case_bool_decide.
    + split; [|split; [done|simpl; lia]].
      destruct (split_char slash p); [simpl in IH3; lia|]. done.
    + destruct (split_char slash p) as [|h [|h' t]]; [simpl in IH3; lia..|].
      split; [|split; [done|simpl; lia]]. done.
Qed.

Lemma last_split_sep (p : str) : last (split_sep p) = Some (basename p).
Proof. apply rfind_sep1_split. Qed.

Lemma basename_app_sep (x b : str) : slash ∉ b → basename (x ++ slash :: b) = b.
Proof.
  intros Hb. pose proof (last_split_sep (x ++ slash :: b)) as H.
  unfold split_sep in H. rewrite split_char_app_sep, (split_char_no_sep _ b Hb) in H.
  rewrite last_snoc in H. by simplify_eq.
Qed.

Lemma basename_no_sep (b : str) : slash ∉ b → basename b = b.
Proof.
  intros Hb. pose proof (last_split_sep b) as H.
  unfold split_sep in H. rewrite (split_char_no_sep _ b Hb) in H. simpl in H. by simplify_eq.
Qed.

Lemma basename_no_slash (p : str) : slash ∉ basename p.
Proof.
  apply (split_char_components slash p). fold (split_sep p).
  apply last_Some_elem_of, last_split_sep.
Qed.

Lemma last_split_join (d inc : str) :
  last (split_sep (join d inc)) = last (split_sep inc).
Proof.
  unfold join.
  destruct (startswith inc [slash]); [done|].
  destruct (bool_decide (d = []) || endswith d [slash]) eqn:E.
  - apply orb_true_iff in E as [E|E].
    + apply bool_decide_eq_true_1 in E. by subst.
    + apply bool_decide_eq_true_1 in E. destruct E as [d' ->].
      rewrite <- app_assoc. simpl. unfold split_sep. rewrite split_char_app_sep.
      pose proof (split_char_nonempty slash inc).
      destruct (split_char slash inc) using rev_ind; [done|].
      by rewrite app_assoc, !last_snoc.
  - simpl. unfold split_sep. rewrite split_char_app_sep.
    pose proof (split_char_nonempty slash inc).
    destruct (split_char slash inc) using rev_ind; [done|].
    by rewrite app_assoc, !last_snoc.
Qed.

Lemma basename_join (d inc : str) : basename (join d inc) = basename inc.
Proof.
  pose proof (last_split_join d inc) as H. rewrite !last_split_sep in H. by simplify_eq.
Qed.

Lemma join_sep_snoc (cs : list str) (b : str) :
  join_sep (cs ++ [b]) = if bool_decide (cs = []) then b else join_sep cs ++ slash :: b.
Proof.
  induction cs as [|c cs IH]; [done|].
  rewrite bool_decide_eq_false_2 by done. simpl.
  destruct cs as [|c' cs]; [done|].
  rewrite bool_decide_eq_false_2 in IH by done.
  change ((c' :: cs) ++ [b]) with (c' :: (cs ++ [b])) in *.
  destruct (cs ++ [b]) eqn:E; [by destruct cs|].
  rewrite <- E in *. rewrite IH. simpl. by rewrite <- app_assoc.
Qed.

Lemma normpath_step_file_name (k : nat) (cs : list str) (b : str) :
  file_name b → normpath_step k cs b = cs ++ [b].
Proof.
  unfold file_name, normpath_step. intros Hb.
  rewrite bool_decide_eq_false_2.
  - rewrite (bool_decide_eq_true_2 (b ≠ dotdot)); [done|].
    intros ->. apply Hb. by do 2 right; left.
  - intros [->|[->|[]%elem_of_nil]%elem_of_cons]%elem_of_cons; apply Hb.
    + by left.
    + by right; left.
Qed.

Lemma basename_normpath (p b : str) :
  last (split_sep p) = Some b → file_name b → basename (normpath p) = b.
Proof.
  intros Hl Hb. unfold normpath.
  assert (Hp : p ≠ []).
  { intros ->. simpl in Hl. simplify_eq. apply Hb. by left. }
  rewrite bool_decide_eq_false_2 by done. cbv zeta.
  assert (Hns : slash ∉ b).
  { apply (split_char_components slash p). by apply last_Some_elem_of. }
  apply last_Some in Hl as [cs0 Hcs]. rewrite Hcs, foldl_app. simpl.
  rewrite normpath_step_file_name by done.
  set (cs := foldl (normpath_step (initial_slashes p)) [] cs0).
  set (k := initial_slashes p).
  assert (Hne : b ≠ []) by (intros ->; apply Hb; by left).
  assert (Hshape : replicate k slash ++ join_sep (cs ++ [b]) = b
                   ∨ ∃ x, replicate k slash ++ join_sep (cs ++ [b]) = x ++ slash :: b).
  { rewrite join_sep_snoc. destruct (decide (cs = [])) as [Hc|Hc].
    - rewrite bool_decide_eq_true_2 by done. destruct k as [|k]; [by left|right].
      exists (replicate k slash). replace (S k) with (k + 1) by lia.
      by rewrite replicate_add, <- app_assoc.
    - rewrite bool_decide_eq_false_2 by done. right.
      exists (replicate k slash ++ join_sep cs). by rewrite <- app_assoc. }
  destruct Hshape as [-> | [x ->]].
  - rewrite bool_decide_eq_false_2 by done. by apply basename_no_sep.
  - rewrite bool_decide_eq_false_2 by (by destruct x). by apply basename_app_sep.
Qed.

Lemma basename_normpath_join (d inc : str) :
  file_name (basename inc) → basename (normpath (join d inc)) = basename inc.
Proof.
  intros Hb. apply basename_normpath; [|done].
  by rewrite last_split_join, last_split_sep.
Qed.

Lemma normpath_nonempty (p : str) : normpath p ≠ [].
Proof.
  unfold normpath. case_bool_decide; [done|]. cbv zeta. by case_bool_decide.
Qed.
End Paths.

(** ** Include resolution *)

Section Resolution.
Import PosixPath CdepAnalyzer.

Lemma filename_map_fold (b : str) (l : list str) (fm0 : gmap str (list str)) :
  default [] (foldl (fun fm rp => <[basename rp := default [] (fm !! basename rp) ++ [rp]]> fm)
                fm0 l !! b)
  = default [] (fm0 !! b) ++ filter (fun rp => basename rp = b) l.
Proof.
  revert fm0. induction l as [|rp l IH]; intros fm0; simpl.
  - by rewrite app_nil_r.
  - rewrite IH. destruct (decide (basename rp = b)) as [<-|Hne].
    + rewrite lookup_insert_eq. simpl. rewrite filter_cons_True by done.
      by rewrite <- app_assoc.
    + rewrite lookup_insert_ne by done. by rewrite filter_cons_False by done.
Qed.

Lemma filename_map_lookup (fs : list file_info) (inc_path : str) :
  default [] (filename_map fs !! basename inc_path) = basename_candidates fs inc_path.
Proof. unfold filename_map. by rewrite filename_map_fold, lookup_empty. Qed.

(** C5: for every set of scanned files, including directory and raw include
    path, the resolution computed by [_resolve_dependencies] is the one of
    the three-tier rule: the normalized path relative to the including
    file's directory if it is a scanned file; else the literal path if it
    is a scanned file; else the scanned files with the same basename, the
    only one if there is one, among several the first whose path ends with
    the include path, and failing that the first in discovery order. *)
Theorem resolve_three_tiers (fs : list file_info) (file_dir inc_path : str) :
  resolve fs (filename_map fs) file_dir inc_path = resolve_spec fs file_dir inc_path.
Proof.
  unfold resolve, resolve_spec, in_files. cbv zeta.
  case_bool_decide; [done|]. case_bool_decide; [done|].
  rewrite filename_map_lookup.
  destruct (basename_candidates fs inc_path) as [|c [|c' cs]]; [done..|].
  cbn [length Nat.eqb Nat.ltb Nat.leb head]. reflexivity.
Qed.

Lemma find_elem_of {A} (f : A → bool) (l : list A) (x : A) :
  List.find f l = Some x → x ∈ l.
Proof. intros H. apply list_elem_of_In. by apply find_some in H as [H _]. Qed.

Lemma basename_candidates_elem (fs : list file_info) (inc_path c : str) :
  c ∈ basename_candidates fs inc_path ↔
  c ∈ (rel_path <$> fs) ∧ basename c = basename inc_path.
Proof. unfold basename_candidates. rewrite list_elem_of_filter. tauto. Qed.

Lemma resolve_in_files (fs : list file_info) (file_dir inc_path t : str) :
  resolve fs (filename_map fs) file_dir inc_path = Some t → t ∈ (rel_path <$> fs).
Proof.
  rewrite resolve_three_tiers. unfold resolve_spec. cbv zeta.
  case_bool_decide as H1; [by intros [= <-]|].
  case_bool_decide as H2; [by intros [= <-]|].
  destruct (basename_candidates fs inc_path) as [|c [|c' cs]] eqn:E; [done|..].
  - intros [= <-]. apply (basename_candidates_elem fs inc_path). rewrite E. by left.
  - destruct (List.find _ _) as [x|] eqn:F.
    + intros [= <-]. apply find_elem_of in F.
      apply (basename_candidates_elem fs inc_path). by rewrite E.
    + intros [= <-]. apply (basename_candidates_elem fs inc_path). rewrite E. by left.
Qed.

Lemma resolve_files_work (fs l : list file_info) (sc : scanner) :
  foldl (resolve_file fs (filename_map fs)) sc l
  = foldl (resolve_work fs) sc (include_work l).
Proof.
  unfold include_work. revert sc.
  induction l as [|info l IH]; intros sc; simpl; [done|].
  rewrite foldl_app, <- IH. f_equal.
  unfold resolve_file. generalize (raw_includes info) as incs.
  intros incs. revert sc. induction incs as [|inc incs IHi]; intros sc; simpl; [done|].
  by rewrite IHi.
Qed.

Lemma resolve_dependencies_work (sc : scanner) :
  _resolve_dependencies sc = foldl (resolve_work (files sc)) sc (include_work (files sc)).
Proof. apply resolve_files_work. Qed.

Lemma get_set_add_to (d : gmap str (gset str)) (k v s : str) :
  get_set (add_to d k v) s = if decide (s = k) then {[v]} ∪ get_set d s else get_set d s.
Proof.
  unfold get_set, add_to. case_decide as H.
  - subst. by rewrite lookup_insert_eq.
  - by rewrite lookup_insert_ne.
Qed.

Lemma truthy_Some (r : option str) : truthy r = true ↔ ∃ t, r = Some t ∧ t ≠ [].
Proof.
  destruct r as [[|c t]|]; simpl.
  - split; [done|]. by intros (t & [= <-] & H).
  - split; [|done]. intros _. by eexists.
  - split; [done|]. by intros (t & ? & _).
Qed.

Lemma resolve_work_files (fs : list file_info) (sc : scanner) (w : str * include) :
  files (resolve_work fs sc w) = files sc.
Proof.
  unfold resolve_work, resolve_include. cbv zeta.
  destruct (truthy _); [done|]. by destruct (negb _).
Qed.

Lemma resolve_work_step (fs : list file_info) (sc : scanner) (w : str * include) (s t : str) :
  (t ∈ get_set (dependencies (resolve_work fs sc w)) s
     ↔ t ∈ get_set (dependencies sc) s ∨ edge_of fs w s t)
  ∧ (s ∈ get_set (reverse_deps (resolve_work fs sc w)) t
     ↔ s ∈ get_set (reverse_deps sc) t ∨ edge_of fs w s t)
  ∧ (t ∈ get_set (unresolved (resolve_work fs sc w)) s
     ↔ t ∈ get_set (unresolved sc) s ∨ unresolved_by fs w s t).
Proof.
  unfold resolve_work, resolve_include, edge_of, unresolved_by, resolution_of. cbv zeta.
  destruct w as [rp inc]. simpl.
  destruct (truthy (resolve fs (filename_map fs) (dirname rp) (path inc))) eqn:Ht.
  - apply truthy_Some in Ht as (r & Hr & Hne). rewrite Hr. simpl.
    rewrite !get_set_add_to. split; [|split].
    + case_decide; set_solver.
    + case_decide; set_solver.
    + set_solver.
  - assert (Hno : ∀ t, ¬ (resolve fs (filename_map fs) (dirname rp) (path inc) = Some t ∧ t ≠ [])).
    { intros t' [H1 H2]. assert (truthy (resolve fs (filename_map fs) (dirname rp) (path inc)) = true).
      { apply truthy_Some. eauto. } congruence. }
    destruct (is_system inc) eqn:Hs; simpl.
    + split; [|split]; [naive_solver..|]. split; [by left|]. intros [?|(?&?&?&?)]; done.
    + rewrite get_set_add_to. split; [|split]; [naive_solver..|].
      case_decide; set_solver.
Qed.

Lemma resolve_fold (fs : list file_info) (l : list (str * include)) (sc : scanner) (s t : str) :
  (t ∈ get_set (dependencies (foldl (resolve_work fs) sc l)) s
     ↔ t ∈ get_set (dependencies sc) s ∨ ∃ w, w ∈ l ∧ edge_of fs w s t)
  ∧ (s ∈ get_set (reverse_deps (foldl (resolve_work fs) sc l)) t
     ↔ s ∈ get_set (reverse_deps sc) t ∨ ∃ w, w ∈ l ∧ edge_of fs w s t)
  ∧ (t ∈ get_set (unresolved (foldl (resolve_work fs) sc l)) s
     ↔ t ∈ get_set (unresolved sc) s ∨ ∃ w, w ∈ l ∧ unresolved_by fs w s t).
Proof.
  revert sc. induction l as [|w l IH]; intros sc; simpl.
  - split; [|split]; split; try (by left); intros [?|(w & []%elem_of_nil & _)]; done.
  - destruct (IH (resolve_work fs sc w)) as (I1 & I2 & I3).
    destruct (resolve_work_step fs sc w s t) as (S1 & S2 & S3).
    rewrite I1, I2, I3, S1, S2, S3. 
    split; [|split]; set_solver.
Qed.

Lemma include_work_elem (fs : list file_info) (s : str) (inc : include) :
  (s, inc) ∈ include_work fs ↔ ∃ info, info ∈ fs ∧ rel_path info = s ∧ inc ∈ raw_includes info.
Proof.
  unfold include_work. rewrite list_elem_of_bind. split.
  - intros (info & Hin & Hfs). apply list_elem_of_fmap in Hin as (inc' & Heq & Hinc).
    simplify_eq. eauto.
  - intros (info & Hfs & <- & Hinc). exists info. split; [|done].
    apply list_elem_of_fmap. eauto.
Qed.

Lemma get_set_empty (s : str) : get_set ∅ s = ∅.
Proof. unfold get_set. by rewrite lookup_empty. Qed.

(** The three tables after resolution on a fresh scanner. *)
Lemma resolved_tables (include_sys : bool) (fs : list file_info) (s t : str) :
  let sc := _resolve_dependencies (Scanner include_sys fs ∅ ∅ ∅) in
  (t ∈ get_set (dependencies sc) s ↔ ∃ w, w ∈ include_work fs ∧ edge_of fs w s t)
  ∧ (s ∈ get_set (reverse_deps sc) t ↔ ∃ w, w ∈ include_work fs ∧ edge_of fs w s t)
  ∧ (t ∈ get_set (unresolved sc) s ↔ ∃ w, w ∈ include_work fs ∧ unresolved_by fs w s t).
Proof.
  cbv zeta. rewrite resolve_dependencies_work. simpl.
  destruct (resolve_fold fs (include_work fs) (Scanner include_sys fs ∅ ∅ ∅) s t)
    as (H1 & H2 & H3).
  simpl in *. rewrite !get_set_empty in *.
  rewrite H1, H2, H3. split; [|split]; split; try (intros [[]%not_elem_of_empty|?]; done);
    by right.
Qed.

Lemma resolve_fold_files (fs : list file_info) (l : list (str * include)) (sc : scanner) :
  files (foldl (resolve_work fs) sc l) = files sc.
Proof.
  revert sc. induction l as [|w l IH]; intros sc; simpl; [done|].
  by rewrite IH, resolve_work_files.
Qed.

Lemma resolve_dependencies_files (sc : scanner) :
  files (_resolve_dependencies sc) = files sc.
Proof. rewrite resolve_dependencies_work. apply resolve_fold_files. Qed.

(** C8: after a scan, for every source [s] and every target [t] in the
    dependency set of [s]: [t] is a scanned file, the targets of [s] are
    listed without repetition, [s] is in the reverse set of [t], and
    reverse and forward tables mirror each other for every pair. *)
Theorem dependency_edges_invariant (include_sys : bool)
    (discovered : list (str * option str * bool)) (s t : str) :
  let sc := scan (init include_sys discovered) in
  t ∈ get_set (dependencies sc) s →
  t ∈ (rel_path <$> files sc)
  ∧ NoDup (elements (get_set (dependencies sc) s))
  ∧ s ∈ get_set (reverse_deps sc) t
  ∧ (∀ s' t', s' ∈ get_set (reverse_deps sc) t' ↔ t' ∈ get_set (dependencies sc) s').
Proof.
  cbv zeta. unfold scan.
  set (parsed := _parse_includes (init include_sys discovered)).
  assert (Hp : parsed = Scanner include_sys (files parsed) ∅ ∅ ∅) by done.
  rewrite resolve_dependencies_files. rewrite Hp. generalize (files parsed). intros fs Ht.
  assert (Hsym : ∀ s' t',
    s' ∈ get_set (reverse_deps (_resolve_dependencies (Scanner include_sys fs ∅ ∅ ∅))) t' ↔
    t' ∈ get_set (dependencies (_resolve_dependencies (Scanner include_sys fs ∅ ∅ ∅))) s').
  { intros s' t'. destruct (resolved_tables include_sys fs s' t') as (H1 & H2 & _).
    by rewrite H1, H2. }
  split; [|split; [apply NoDup_elements|split; [by apply Hsym|done]]].
  destruct (resolved_tables include_sys fs s t) as (H1 & _ & _).
  apply H1 in Ht as (w & _ & _ & Hres & _).
  by apply resolve_in_files in Hres.
Qed.


Lemma dependency_edges_invariant_witness :
  let sc := scan (init false Scenarios.scenario_A) in
  lit "a.h" ∈ (rel_path <$> files sc)
  ∧ NoDup (elements (get_set (dependencies sc) (lit "b.c")))
  ∧ lit "b.c" ∈ get_set (reverse_deps sc) (lit "a.h")
  ∧ (∀ s' t', s' ∈ get_set (reverse_deps sc) t' ↔ t' ∈ get_set (dependencies sc) s').
Proof.
  apply (dependency_edges_invariant false Scenarios.scenario_A (lit "b.c") (lit "a.h")).
  apply (bool_decide_unpack _). vm_compute. exact I.
Defined.

Lemma NoDup_fmap_inj {A B} (f : A → B) (l : list A) (x y : A) :
  NoDup (f <$> l) → x ∈ l → y ∈ l → f x = f y → x = y.
Proof.
  induction l as [|a l IH]; simpl; [by intros _ []%elem_of_nil|].
  intros [Ha Hnd]%NoDup_cons [->|Hx]%elem_of_cons [->|Hy]%elem_of_cons Heq; [done|..].
  - destruct Ha. rewrite Heq. apply list_elem_of_fmap. eauto.
  - destruct Ha. rewrite <- Heq. apply list_elem_of_fmap. eauto.
  - by apply IH.
Qed.

Lemma matches_no_file_resolve (fs : list file_info) (file_dir inc_path : str) :
  matches_no_file fs file_dir inc_path →
  resolve fs (filename_map fs) file_dir inc_path = None.
Proof.
  intros (H1 & H2 & H3). rewrite resolve_three_tiers. unfold resolve_spec. cbv zeta.
  rewrite !bool_decide_eq_false_2 by done.
  destruct (basename_candidates fs inc_path) as [|c cs] eqn:E; [done|].
  assert (Hc : c ∈ basename_candidates fs inc_path) by (rewrite E; by left).
  apply basename_candidates_elem in Hc as [Hc Hb]. by destruct (H3 c Hc).
Qed.

(** C6: when an include of a file matches no scanned file, resolution
    (a total function: the run completes) finds nothing for it; if the
    include is local, its path is in the file's unresolved set; the
    unresolved set only ever holds paths of local includes, so an unresolved
    system include is dropped; and when it is the file's only include the
    file has no dependency edge and its unresolved count is 1 for a local
    include, 0 for a system include. *)
Theorem unresolved_include_is_recorded (include_sys : bool) (fs : list file_info)
    (info : file_info) (inc : include) :
  NoDup (rel_path <$> fs) → info ∈ fs → inc ∈ raw_includes info →
  matches_no_file fs (dirname (rel_path info)) (path inc) →
  let sc := _resolve_dependencies (Scanner include_sys fs ∅ ∅ ∅) in
  let rp := rel_path info in
  resolve fs (filename_map fs) (dirname rp) (path inc) = None
  ∧ (is_system inc = false → path inc ∈ get_set (unresolved sc) rp)
  ∧ (∀ p, p ∈ get_set (unresolved sc) rp →
          ∃ i, i ∈ raw_includes info ∧ is_system i = false ∧ path i = p)
  ∧ (raw_includes info = [inc] →
       get_set (dependencies sc) rp = ∅
       ∧ unresolved_count sc rp = if is_system inc then 0 else 1).
Proof.
  intros Hnd Hinfo Hinc Hno. cbv zeta.
  pose proof (matches_no_file_resolve _ _ _ Hno) as Hres.
  assert (Hwork : ∀ i, (rel_path info, i) ∈ include_work fs ↔ i ∈ raw_includes info).
  { intros i. rewrite include_work_elem. split; [|by eauto].
    intros (info' & Hin' & Heq & Hi).
    by rewrite <- (NoDup_fmap_inj rel_path fs info' info Hnd Hin' Hinfo Heq). }
  split; [done|]. split; [|split].
  - intros Hsys. apply resolved_tables. exists (rel_path info, inc).
    split; [by apply Hwork|]. unfold unresolved_by, resolution_of. simpl.
    by rewrite Hres.
  - intros p Hp. apply resolved_tables in Hp as ([s i] & Hw & Hs & _ & Hsys & Hpath).
    simpl in *. subst s. exists i. split; [by apply Hwork|done].
  - intros Hsingle. split.
    + apply set_eq. intros t. split; [|by intros []%not_elem_of_empty].
      intros Ht. apply resolved_tables in Ht as ([s i] & Hw & Hs & Hr & _).
      simpl in *. subst s. apply Hwork in Hw. rewrite Hsingle in Hw.
      apply list_elem_of_singleton in Hw as ->.
      unfold resolution_of in Hr. simpl in Hr. congruence.
    + unfold unresolved_count.
      assert (Hset : get_set (unresolved (_resolve_dependencies (Scanner include_sys fs ∅ ∅ ∅)))
                       (rel_path info)
                     = if is_system inc then ∅ else {[path inc]}).
      { apply set_eq. intros p. rewrite (proj2 (proj2 (resolved_tables include_sys fs (rel_path info) p))).
        split.
        - intros ([s i] & Hw & Hs & _ & Hsys & Hpath). simpl in *. subst s.
          apply Hwork in Hw. rewrite Hsingle in Hw.
          apply list_elem_of_singleton in Hw as ->. rewrite Hsys. set_solver.
        - destruct (is_system inc) eqn:Hsys; [by intros []%not_elem_of_empty|].
          intros ->%elem_of_singleton. exists (rel_path info, inc).
          split; [by apply Hwork|]. unfold unresolved_by, resolution_of. simpl.
          by rewrite Hres. }
      rewrite Hset. destruct (is_system inc); [apply size_empty | apply size_singleton].
Qed.



Lemma unresolved_include_is_recorded_witness :
  let sc := scan (init false Scenarios.scenario_E) in
  unresolved_count sc (lit "main.c") = 1
  ∧ lit "missing.h" ∈ get_set (unresolved sc) (lit "main.c")
  ∧ get_set (dependencies sc) (lit "main.c") = ∅.
Proof.
  destruct (unresolved_include_is_recorded false
              (files (_parse_includes (init false Scenarios.scenario_E)))
              Scenarios.scenario_E_file (Include (lit "missing.h") false))
    as (_ & Hin & _ & Hsingle).
  - apply (bool_decide_unpack _). vm_compute. exact I.
  - vm_compute. constructor.
  - vm_compute. constructor.
  - split; [|split].
    + apply (bool_decide_unpack _). vm_compute. exact I.
    + apply (bool_decide_unpack _). vm_compute. exact I.
    + apply Forall_forall. apply (bool_decide_unpack _). vm_compute. exact I.
  - destruct (Hsingle eq_refl) as [Hd Hc].
    split; [exact Hc|]. split; [exact (Hin eq_refl) | exact Hd].
Defined.

Lemma file_name_nonempty (u : str) : file_name (basename u) → u ≠ [].
Proof. intros Hu ->. apply Hu. by left. Qed.

(** C4, amended: for every include the parser recorded for a file -- any
    quote-form include, and any angle-form include that is not dropped as a
    system header -- whose basename is that of exactly one scanned file [u]
    (a proper file name), resolution gives [u] from every including
    directory and whatever the kind of bracket, and the edge and its mirror
    are in the tables after the run. *)
Theorem unique_basename_resolves (include_sys : bool) (fs : list file_info)
    (info : file_info) (inc : include) (u : str) :
  info ∈ fs → inc ∈ raw_includes info →
  u ∈ (rel_path <$> fs) → file_name (basename u) →
  basename (path inc) = basename u →
  (∀ v, v ∈ (rel_path <$> fs) → basename v = basename u → v = u) →
  let sc := _resolve_dependencies (Scanner include_sys fs ∅ ∅ ∅) in
  (∀ file_dir, resolve fs (filename_map fs) file_dir (path inc) = Some u)
  ∧ u ∈ get_set (dependencies sc) (rel_path info)
  ∧ rel_path info ∈ get_set (reverse_deps sc) u.
Proof.
  intros Hinfo Hinc Hu Hname Hbase Huniq. cbv zeta.
  assert (Hres : ∀ file_dir, resolve fs (filename_map fs) file_dir (path inc) = Some u).
  { intros file_dir. rewrite resolve_three_tiers. unfold resolve_spec. cbv zeta.
    case_bool_decide as H1.
    { f_equal. apply Huniq; [done|].
      rewrite basename_normpath_join; [done|]. by rewrite Hbase. }
    case_bool_decide as H2.
    { f_equal. by apply Huniq. }
    assert (Hall : ∀ c, c ∈ basename_candidates fs (path inc) → c = u).
    { intros c [Hc Hb]%basename_candidates_elem. apply Huniq; [done|congruence]. }
    assert (Hmem : u ∈ basename_candidates fs (path inc)).
    { apply basename_candidates_elem. by split. }
    destruct (basename_candidates fs (path inc)) as [|c [|c' cs]] eqn:E.
    - by apply elem_of_nil in Hmem.
    - f_equal. apply Hall. by left.
    - destruct (List.find _ _) as [x|] eqn:F.
      + f_equal. apply Hall. by apply find_elem_of in F.
      + f_equal. apply Hall. by left. }
  split; [done|].
  assert (Hedge : ∃ w, w ∈ include_work fs ∧ edge_of fs w (rel_path info) u).
  { exists (rel_path info, inc). split; [apply include_work_elem; by eauto|].
    split; [done|]. split; [apply Hres|]. by apply file_name_nonempty. }
  split; by apply resolved_tables.
Qed.

Lemma unique_basename_resolves_witness :
  let sc := scan (init false Scenarios.own_list_header_quoted) in
  lit "include/list.h" ∈ get_set (dependencies sc) (lit "src/main.c")
  ∧ lit "src/main.c" ∈ get_set (reverse_deps sc) (lit "include/list.h").
Proof.
  destruct (unique_basename_resolves false
              (files (_parse_includes (init false Scenarios.own_list_header_quoted)))
              Scenarios.quoted_main_file (Include (lit "list.h") false)
              (lit "include/list.h"))
    as (_ & Hd & Hr).
  - vm_compute. constructor.
  - vm_compute. constructor.
  - apply (bool_decide_unpack _). vm_compute. exact I.
  - unfold file_name. apply (bool_decide_unpack _). vm_compute. exact I.
  - vm_compute. reflexivity.
  - apply (proj1 (Forall_forall
      (fun v => basename v = basename (lit "include/list.h") → v = lit "include/list.h") _)).
    apply (bool_decide_unpack _). vm_compute. exact I.
  - split; [exact Hd | exact Hr].
Defined.

(** C4 as stated fails: [src/main.c] includes [<list.h>], [include/list.h]
    is the only scanned file with that basename, yet the directive is
    dropped by [_parse_includes] ([list] is a system-header prefix) and no
    edge is created. *)
Lemma system_prefixed_include_is_dropped :
  let sc := scan (init false Scenarios.own_list_header) in
  basename_candidates (files sc) (lit "list.h") = [lit "include/list.h"]
  ∧ (raw_includes <$> files sc) = [[]; []]
  ∧ get_set (dependencies sc) (lit "src/main.c") = ∅
  ∧ get_set (unresolved sc) (lit "src/main.c") = ∅.
Proof. vm_compute. repeat split; reflexivity. Qed.

End Resolution.

(** ** Cycle detection *)

Section Cycles.
Import PosixPath CdepAnalyzer Scenarios.

Lemma find_cycles_step_nodup (fuel : nat) (deps : gmap str (gset str))
    (acc acc' : list (list str) * dfs_state) (node : str) :
  find_cycles_step fuel deps acc node = Ok acc' → NoDup acc.1 → NoDup acc'.1.
Proof.
  unfold find_cycles_step. destruct acc as [cycles st]. simpl.
  case_bool_decide; [|by intros [= <-]].
  destruct (dfs fuel deps node st) as [[r st']| |]; simpl; [|done..].
  destruct r as [[|x cycle]|]; try (by intros [= <-]).
  destruct (normalize (x :: cycle)) as [normalized| |]; simpl; [|done..].
  case_bool_decide as Hnew; intros [= <-] Hnd; simpl; [|done].
  apply NoDup_app. split; [done|]. split; [|apply NoDup_singleton].
  intros c Hc ->%list_elem_of_singleton. done.
Qed.

Lemma find_cycles_loop_nodup (fuel : nat) (deps : gmap str (gset str))
    (nodes : list str) (acc acc' : list (list str) * dfs_state) :
  find_cycles_loop fuel deps nodes acc = Ok acc' → NoDup acc.1 → NoDup acc'.1.
Proof.
  revert acc. induction nodes as [|node nodes IH]; intros acc; simpl.
  - by intros [= <-].
  - destruct (find_cycles_step fuel deps acc node) as [acc1| |] eqn:E; simpl; [|done..].
    intros Hloop Hnd. apply (IH acc1 Hloop). by apply (find_cycles_step_nodup _ _ _ _ _ E).
Qed.

(** The deduplication half of the cycle property holds for every graph: no
    cycle is returned twice. *)
Lemma find_cycles_nodup (sc : scanner) (cycles : list (list str)) :
  find_cycles sc = Ok cycles → NoDup cycles.
Proof.
  unfold find_cycles.
  destruct (find_cycles_loop _ _ _ _) as [acc| |] eqn:E; simpl; [|done..].
  intros [= <-]. apply (find_cycles_loop_nodup _ _ _ _ _ E). apply NoDup_nil_2.
Qed.

(** C1: on three headers where [a.h] and [b.h] include each other and [c.h]
    includes [a.h], discovered in this order, [find_cycles] returns the
    cycle [a.h, b.h, a.h] and then [a.h, b.h, c.h, a.h]; the second is not
    a closed walk of the include graph, which has no edge from [b.h] to
    [c.h].  Every dependency set of the input has one element, so the
    order in which Python iterates over a set plays no part. *)
Theorem find_cycles_reports_non_walk :
  let sc := scan (init false stale_stack) in
  dependencies sc = {[ lit "a.h" := {[ lit "b.h" ]}; lit "b.h" := {[ lit "a.h" ]};
                       lit "c.h" := {[ lit "a.h" ]} ]}
  ∧ find_cycles sc = Ok [[lit "a.h"; lit "b.h"; lit "a.h"];
                         [lit "a.h"; lit "b.h"; lit "c.h"; lit "a.h"]]
  ∧ ¬ is_edge sc (lit "b.h") (lit "c.h")
  ∧ ¬ closed_walk sc [lit "a.h"; lit "b.h"; lit "c.h"; lit "a.h"].
Proof.
  cbv zeta.
  assert (Hne : ¬ is_edge (scan (init false stale_stack)) (lit "b.h") (lit "c.h")).
  { unfold is_edge. apply (bool_decide_unpack _). vm_compute. exact I. }
  split; [by vm_compute|]. split; [by vm_compute|]. split; [done|].
  intros [_ Hwalk]. apply Hne. by apply (Hwalk 1).
Qed.

End Cycles.

(** ** The call graph *)

Section CallGraph.
Import Re PosixPath CdepAnalyzer CodebaseReviewer Scenarios.

(** C2 as stated fails: on the text of scenario D, with each definition on
    one line, the scan completes without recording any call edge; [Foo] is
    not in [Bar]'s [called_by] and [Bar] is not in [Foo]'s [calls]. *)
Lemma one_line_definition_hides_call :
  ∃ cg, scan_calls (init false [(lit "main.c", Some scenario_D, false)]) = Ok cg
        ∧ call_edges cg = []
        ∧ called_by <$> functions cg !! lit "Bar" = Some ∅
        ∧ calls <$> functions cg !! lit "Foo" = Some ∅.
Proof. eexists. split; [by vm_compute|]. by vm_compute. Qed.

(** C2, amended: for a non-header file, whatever its path, whose text
    starts [Foo]'s definition on one line and calls [Bar] on a later line,
    and defines [Bar], the scan records the call edge ([Foo], [Bar]), puts
    [Foo] in [Bar]'s [called_by] and [Bar] in [Foo]'s [calls]. *)
Theorem call_edge_recorded (file_path : str) :
  ∃ cg, scan_calls (init false [(file_path, Some scenario_D_lines, false)]) = Ok cg
        ∧ call_edges cg = [(lit "Foo", lit "Bar")]
        ∧ called_by <$> functions cg !! lit "Bar" = Some {[lit "Foo"]}
        ∧ calls <$> functions cg !! lit "Foo" = Some {[lit "Bar"]}.
Proof. eexists. split; [by vm_compute|]. by vm_compute. Qed.

Lemma find_definitions_functions (text file_path : str) (cg : call_graph) :
  functions (_find_definitions text file_path cg)
  = foldl insert_definition (functions cg) (definitions_in text file_path).
Proof.
  unfold _find_definitions, definitions_in.
  generalize (finditer func_def text) as ms. intros ms. revert cg.
  induction ms as [|m ms IH]; intros cg; simpl; [done|].
  rewrite IH. by destruct (definition_of text file_path m).
Qed.

Lemma first_pass_functions (fs : list file_info) (cg : call_graph) :
  functions (first_pass fs cg)
  = foldl insert_definition (functions cg) (scanned_definitions fs).
Proof.
  unfold first_pass, scanned_definitions. revert cg.
  induction fs as [|info fs IH]; intros cg; simpl; [done|].
  rewrite foldl_app, IH. f_equal.
  destruct (content info); [apply find_definitions_functions | done].
Qed.

Lemma insert_definitions_other (ds : list func_info) (m : gmap str func_info) (n : str) :
  (∀ d, d ∈ ds → name d ≠ n) → foldl insert_definition m ds !! n = m !! n.
Proof.
  revert m. induction ds as [|d ds IH]; intros m Hds; simpl; [done|].
  rewrite IH by (intros d' Hd'; apply Hds; by right).
  unfold insert_definition. apply lookup_insert_ne. apply Hds. by left.
Qed.

(** C7: the definition table is keyed by the bare name: whatever the files
    and their order, if [d] is met in the definition pass and no definition
    met after it has the same name, the table holds [d] under that name --
    whatever was recorded under the name before is overwritten. *)
Theorem last_definition_wins (fs : list file_info) (pre post : list func_info)
    (d : func_info) :
  scanned_definitions fs = pre ++ d :: post →
  (∀ d', d' ∈ post → name d' ≠ name d) →
  functions (first_pass fs empty_graph) !! name d = Some d.
Proof.
  intros Hscan Hpost. rewrite first_pass_functions, Hscan, foldl_app. simpl.
  rewrite insert_definitions_other by done.
  unfold insert_definition. apply lookup_insert_eq.
Qed.

Lemma last_definition_wins_witness :
  functions (first_pass two_inits empty_graph) !! lit "init" = Some init_b.
Proof.
  apply (last_definition_wins two_inits [init_a] [stop_b] init_b).
  - vm_compute. reflexivity.
  - apply (proj1 (Forall_forall (fun d' => name d' ≠ name init_b) _)).
    apply (bool_decide_unpack _). vm_compute. exact I.
Defined.

(** With the two files scanned in the other order the other entry stays. *)
Lemma last_definition_wins_reversed :
  functions (first_pass (reverse two_inits) empty_graph) !! lit "init" = Some init_a.
Proof.
  apply (last_definition_wins (reverse two_inits) [init_b; stop_b] [] init_a);
    [by vm_compute|]. by intros d' Hd'%elem_of_nil.
Qed.

End CallGraph.

(** ** Enum usage *)

Section EnumUsage.
Import Re PosixPath CdepAnalyzer CodebaseReviewer Scenarios.

Lemma refs_add_ref (u : gmap str (gmap str nat)) (e f e' f' : str) :
  refs (add_ref u e f) e' f'
  = if bool_decide (e' = e ∧ f' = f) then refs u e f + 1 else refs u e' f'.
Proof.
  unfold refs, add_ref. destruct (decide (e' = e)) as [->|He].
  - rewrite lookup_insert_eq. simpl. destruct (decide (f' = f)) as [->|Hf].
    + rewrite lookup_insert_eq, bool_decide_eq_true_2 by done. done.
    + rewrite lookup_insert_ne, bool_decide_eq_false_2 by naive_solver. done.
  - rewrite lookup_insert_ne, bool_decide_eq_false_2 by naive_solver. done.
Qed.

Lemma scan_enums_refs (text rp : str) (names : list str) (u : gmap str (gmap str nat))
    (e f : str) :
  NoDup names →
  refs (foldl (scan_enum text rp) u names) e f
  = refs u e f + (if bool_decide (f = rp ∧ e ∈ names) && found_in text e then 1 else 0).
Proof.
  revert u. induction names as [|n names IH]; intros u Hnd; simpl.
  - rewrite bool_decide_eq_false_2; [simpl; lia|]. by intros (_ & []%elem_of_nil).
  - apply NoDup_cons in Hnd as [Hn Hnd]. rewrite IH by done.
    unfold scan_enum, found_in.
    destruct (decide (e = n)) as [->|He].
    + rewrite (bool_decide_eq_false_2 (f = rp ∧ n ∈ names)) by naive_solver. simpl.
      destruct (search (enum_pattern n) text) as [m|] eqn:Hs.
      * rewrite refs_add_ref. rewrite (bool_decide_eq_true_2 (is_Some (Some m))) by done.
        destruct (decide (f = rp)) as [->|Hf].
        -- rewrite !bool_decide_eq_true_2; [simpl; lia|split; [done|by left]|done].
        -- rewrite !bool_decide_eq_false_2 by naive_solver. simpl. lia.
      * rewrite (bool_decide_eq_false_2 (is_Some None)) by (by intros [? ?]).
        rewrite andb_false_r. lia.
    + assert (Heq : bool_decide (f = rp ∧ e ∈ n :: names) = bool_decide (f = rp ∧ e ∈ names)).
      { apply bool_decide_ext. rewrite elem_of_cons. naive_solver. }
      rewrite Heq. f_equal.
      destruct (search (enum_pattern n) text) as [m|]; [|done].
      rewrite refs_add_ref. by rewrite bool_decide_eq_false_2 by naive_solver.
Qed.

Lemma scan_usage_file_refs (names : gset str) (info : file_info)
    (u : gmap str (gmap str nat)) (e f : str) :
  refs (scan_usage_file names u info) e f = refs u e f + file_refs names info e f.
Proof.
  unfold scan_usage_file, file_refs. destruct (content info) as [text|]; [|lia].
  rewrite scan_enums_refs by apply NoDup_elements.
  assert (Heq : bool_decide (f = rel_path info ∧ e ∈ elements names)
                = bool_decide (f = rel_path info ∧ e ∈ names)).
  { apply bool_decide_ext. by rewrite elem_of_elements. }
  by rewrite Heq.
Qed.

Lemma scan_files_refs (names : gset str) (fs : list file_info)
    (u : gmap str (gmap str nat)) (e f : str) :
  refs (foldl (scan_usage_file names) u fs) e f = refs u e f + total_refs names fs e f.
Proof.
  revert u. induction fs as [|info fs IH]; intros u; simpl; [lia|].
  rewrite IH, scan_usage_file_refs. lia.
Qed.

Lemma file_refs_other (names : gset str) (info : file_info) (e f : str) :
  rel_path info ≠ f → file_refs names info e f = 0.
Proof.
  intros Hne. unfold file_refs. destruct (content info); [|done].
  by rewrite bool_decide_eq_false_2 by naive_solver.
Qed.

Lemma file_refs_le (names : gset str) (info : file_info) (e f : str) :
  file_refs names info e f ≤ 1.
Proof. unfold file_refs. destruct (content info); [|lia]. destruct (_ && _); lia. Qed.

Lemma total_refs_absent (names : gset str) (fs : list file_info) (e f : str) :
  f ∉ (rel_path <$> fs) → total_refs names fs e f = 0.
Proof.
  induction fs as [|info fs IH]; simpl; [done|].
  intros [Hne Hf]%not_elem_of_cons. rewrite IH by done.
  by rewrite file_refs_other by done.
Qed.

Lemma total_refs_le (names : gset str) (fs : list file_info) (e f : str) :
  NoDup (rel_path <$> fs) → total_refs names fs e f ≤ 1.
Proof.
  induction fs as [|info fs IH]; simpl; [lia|].
  intros [Hnot Hnd]%NoDup_cons. destruct (decide (rel_path info = f)) as [<-|Hne].
  - rewrite total_refs_absent by done.
    pose proof (file_refs_le names info e (rel_path info)). lia.
  - rewrite file_refs_other by done. simpl. by apply IH.
Qed.

Lemma refs_empty (e f : str) : refs ∅ e f = 0.
Proof. unfold refs. by rewrite lookup_empty. Qed.

(** C10: after the usage scan of a file table (a dict: no two entries
    share a path), the reference count of every pair of an enum name and a
    file is 0 or 1, however often the name occurs in the file. *)
Theorem enum_refs_zero_or_one (sc : scanner) (enums : list enum_def) (e f : str) :
  NoDup (rel_path <$> files sc) →
  refs (_scan_usage sc enums) e f = 0 ∨ refs (_scan_usage sc enums) e f = 1.
Proof.
  intros Hnd. unfold _scan_usage. rewrite scan_files_refs, refs_empty.
  pose proof (total_refs_le (enum_names enums) (files sc) e f Hnd). lia.
Qed.

Lemma enum_refs_zero_or_one_witness :
  refs (_scan_usage (init false color_files) [color_enum]) (lit "Color") (lit "paint.c") = 1
  ∧ length (finditer (enum_pattern (lit "Color")) color_text) = 4.
Proof.
  split; [|by vm_compute].
  destruct (enum_refs_zero_or_one (init false color_files) [color_enum]
              (lit "Color") (lit "paint.c")) as [H0|H1].
  - apply (bool_decide_unpack _). vm_compute. exact I.
  - exfalso. revert H0. vm_compute. discriminate.
  - exact H1.
Defined.
End EnumUsage.

(** * Further properties of the code *)

(** ** The normalizer, continued *)

Section NormalizerExtras.
Import FuncScanning.
Variable code : str.
Hypothesis no_dquote : dquote ∉ code.
Hypothesis no_squote : squote ∉ code.
Local Abbreviation plain := (FuncScanning.plain code).

Lemma kept_snoc (i : nat) (res : str) (c : ascii) :
  kept code i res → i < length code →
  (c = space ∧ code !! i ≠ Some newline) ∨ code !! i = Some c →
  kept code (S i) (res ++ [c]).
Proof.
  intros [Hb Hk] Hlt Hc. split.
  - apply blanked_snoc; [done..|]. destruct Hc as [[-> _]|Hc]; [by left|by right].
  - intros j Hj Hn. destruct Hb as (Hl & _ & _).
    destruct (decide (j = i)) as [->|Hne].
    + rewrite lookup_app_r by lia. replace (i - length res) with 0 by lia. simpl.
      destruct Hc as [[_ Hc]|Hc]; [done|congruence].
    + rewrite lookup_app_l by lia. apply Hk; [lia|done].
Qed.

Lemma line_comment_loop_kept (rest : str) (i : nat) (res : str) :
  drop i code = rest → kept code i res →
  kept code (line_comment_loop rest i res).1 (line_comment_loop rest i res).2.
Proof.
  revert i res. induction rest as [|c rest IH]; intros i res Hd Hk; simpl; [done|].
  apply drop_cons_inv in Hd as (Hc & Hd & Hlt).
  case_bool_decide as Hn; simpl; [|done].
  apply IH; [done|]. apply kept_snoc; [done..|]. left. split; [done|congruence].
Qed.

Lemma block_comment_loop_kept (rest : str) (i : nat) (res : str) :
  drop i code = rest → kept code i res →
  kept code (block_comment_loop rest i res).1 (block_comment_loop rest i res).2.
Proof.
  revert i res. induction rest as [|c rest IH]; intros i res Hd Hk; simpl; [done|].
  destruct rest as [|c' rest']; [done|].
  apply drop_cons_inv in Hd as (Hc & Hd & Hlt).
  case_bool_decide; simpl; [|done].
  assert (Hk' : kept code (S i)
    (res ++ [if bool_decide (c ≠ newline) then space else newline])).
  { apply kept_snoc; [done..|]. case_bool_decide as Hn.
    - left. split; [done|congruence].
    - right. destruct (decide (c = newline)) as [->|Hne]; [done|]. by destruct Hn. }
  pose proof (IH (S i) _ Hd Hk') as H1. by simpl in H1.
Qed.

Lemma block_comment_loop_exit (rest : str) (i : nat) (res : str) :
  drop i code = rest →
  (block_comment_loop rest i res).1 + 2 ≤ length code →
  code !! (block_comment_loop rest i res).1 = Some star
  ∧ code !! S (block_comment_loop rest i res).1 = Some slash.
Proof.
  revert i res. induction rest as [|c rest IH]; intros i res Hd; simpl.
  { intros Hl. apply (f_equal length) in Hd. rewrite length_drop in Hd. simpl in Hd. lia. }
  destruct rest as [|c' rest'].
  { simpl. intros Hl. apply (f_equal length) in Hd. rewrite length_drop in Hd.
    simpl in Hd. lia. }
  apply drop_cons_inv in Hd as (Hc & Hd & Hlt).
  destruct (decide ([c; c'] = [star; slash])) as [Heq|Hne].
  - rewrite bool_decide_eq_false_2 by (by intros ?). simpl. intros _.
    simplify_eq. split; [done|]. apply drop_cons_inv in Hd. tauto.
  - rewrite bool_decide_eq_true_2 by done. intros Hl.
    pose proof (IH (S i) (res ++ [if bool_decide (c ≠ newline) then space else newline]) Hd)
      as H1. simpl in H1. by apply H1.
Qed.

Lemma lex_step_plain (st : lex_state) :
  plain st → pos st < length code → plain (lex_step code st).
Proof.
  intros (Hs & Hc & Hk) Hlt. unfold FuncScanning.plain, lex_step. cbv zeta. rewrite Hs, Hc. simpl.
  destruct (code !! pos st) as [ci|] eqn:Hci; [|apply lookup_ge_None in Hci; lia].
  assert (Hd : ci ≠ dquote) by (intros ->; apply no_dquote; by eapply list_elem_of_lookup_2).
  assert (Hq : ci ≠ squote) by (intros ->; apply no_squote; by eapply list_elem_of_lookup_2).
  rewrite (bool_decide_eq_false_2 (Some ci = Some dquote)) by congruence.
  rewrite (bool_decide_eq_false_2 (Some ci = Some squote)) by congruence. simpl.
  destruct (decide (py_slice code (pos st) (pos st + 2) = [slash; slash])) as [Hs1|Hs1];
    [rewrite bool_decide_eq_true_2 by done | rewrite bool_decide_eq_false_2 by done].
  { pose proof (line_comment_loop_kept _ _ _ eq_refl Hk) as H1.
    destruct (line_comment_loop (drop (pos st) code) (pos st) (result st)) as [i' r'].
    by simpl in *. }
  destruct (decide (py_slice code (pos st) (pos st + 2) = [slash; star])) as [Hs2|Hs2];
    [rewrite bool_decide_eq_true_2 by done | rewrite bool_decide_eq_false_2 by done].
  { apply py_slice_two in Hs2 as [rest Hd2].
    assert (Hc0 : code !! pos st = Some slash) by (apply drop_cons_inv in Hd2; tauto).
    assert (Hd3 : drop (S (pos st)) code = star :: rest) by (apply drop_cons_inv in Hd2; tauto).
    assert (Hc1 : code !! S (pos st) = Some star) by (apply drop_cons_inv in Hd3; tauto).
    assert (Hl1 : S (pos st) < length code) by (by eapply lookup_lt_Some).
    assert (Hk2 : kept code (pos st + 2) (result st ++ [space; space])).
    { replace (pos st + 2) with (S (S (pos st))) by lia.
      change [space; space] with ([space] ++ [space]). rewrite app_assoc.
      apply kept_snoc; [|done|left; split; [done|by rewrite Hc1]].
      apply kept_snoc; [done..|]. left. split; [done|by rewrite Hc0]. }
    pose proof (block_comment_loop_kept _ _ _ eq_refl Hk2) as H1.
    destruct Hk2 as [Hb2 _].
    pose proof (block_comment_loop_blanked code _ _ _ eq_refl Hb2) as (_ & H2 & H3).
    destruct (block_comment_loop (drop (pos st + 2) code) (pos st + 2)
                (result st ++ [space; space])) as [i' r'] eqn:E. simpl in *.
    destruct (i' <? length code - 1) eqn:Hi'; simpl; [|done].
    apply Nat.ltb_lt in Hi'. specialize (H3 Hi').
    pose proof (block_comment_loop_exit _ (pos st + 2) (result st ++ [space; space]) eq_refl)
      as Hx. rewrite E in Hx. simpl in Hx. destruct (Hx H3) as [Hx1 Hx2].
    split; [done|]. split; [done|].
    replace (i' + 2) with (S (S i')) by lia.
    change [space; space] with ([space] ++ [space]). rewrite app_assoc.
    apply kept_snoc; [|lia|left; split; [done|by rewrite Hx2]].
    apply kept_snoc; [done|lia|]. left. split; [done|by rewrite Hx1]. }
  simpl. rewrite Nat.add_1_r. split; [done|]. split; [done|].
  apply kept_snoc; [done..|]. by right.
Qed.

Lemma lex_loop_plain (fuel : nat) (st st' : lex_state) :
  plain st → lex_loop fuel code st = Some st' → plain st'.
Proof.
  revert st. induction fuel as [|fuel IH]; intros st Hp; simpl.
  - destruct (pos st <? length code); [done|]. by intros [= <-].
  - destruct (pos st <? length code) eqn:Hlt; [|by intros [= <-]].
    apply Nat.ltb_lt in Hlt. apply IH. by apply lex_step_plain.
Qed.
End NormalizerExtras.

Section NormalizerExtraResults.
Import FuncScanning.

(** X1: the normalizer always returns; its output has the length of the
    input, and each output character is a space or the input character at
    the same position. *)
Theorem normalizer_blanks_in_place (code : str) :
  ∃ out, _remove_comments_and_strings code = Some out
         ∧ length out = length code
         ∧ ∀ j c, out !! j = Some c → c = space ∨ code !! j = Some c.
Proof.
  destruct (lex_loop_total code) as [out Hout]. exists out. split; [done|].
  by apply remove_blanks.
Qed.

(** X2: on a text without double or single quote characters the
    normalizer keeps the line structure: the output has a newline exactly
    where the input has one. *)
Theorem normalizer_keeps_lines_without_quotes (code : str) :
  dquote ∉ code → squote ∉ code →
  ∃ out, _remove_comments_and_strings code = Some out
         ∧ (∀ j, out !! j = Some newline ↔ code !! j = Some newline)
         ∧ newline_positions out = newline_positions code.
Proof.
  intros Hd Hq. destruct (lex_loop_total code) as [out Hout]. exists out.
  split; [done|].
  destruct (remove_blanks code out Hout) as [Hlen Hp].
  assert (Hiff : ∀ j, out !! j = Some newline ↔ code !! j = Some newline).
  { intros j. split.
    - intros Hj. by destruct (Hp j newline Hj).
    - intros Hj. unfold _remove_comments_and_strings in Hout.
      destruct (lex_loop (length code) code lex_init) as [st|] eqn:E; [|done].
      simpl in Hout. simplify_eq.
      assert (Hplain : FuncScanning.plain code st).
      { apply (lex_loop_plain code Hd Hq (length code) lex_init st); [|done].
        split; [done|]. split; [done|]. split.
        - split; [done|]. split; [simpl; lia|]. intros j' c' Hj'. done.
        - simpl. lia. }
      destruct Hplain as (_ & _ & [(Hl & _ & _) Hk]). apply Hk; [|done].
      apply lookup_lt_Some in Hj. lia. }
  split; [done|]. unfold newline_positions. rewrite Hlen.
  apply list_filter_iff. intros j. apply Hiff.
Qed.

Lemma normalizer_keeps_lines_without_quotes_witness :
  ∃ out, _remove_comments_and_strings
           (lit "int x; // one" ++ [newline] ++ lit "/* two" ++ [newline] ++ lit "three */ y;")
         = Some out
         ∧ newline_positions out = [13; 20].
Proof.
  destruct (normalizer_keeps_lines_without_quotes
              (lit "int x; // one" ++ [newline] ++ lit "/* two" ++ [newline] ++ lit "three */ y;"))
    as (out & Hout & _ & Hpos).
  - apply (bool_decide_unpack _). vm_compute. exact I.
  - apply (bool_decide_unpack _). vm_compute. exact I.
  - exists out. split; [exact Hout|]. rewrite Hpos. vm_compute. reflexivity.
Defined.
End NormalizerExtraResults.

(** ** Scanner statistics and the parse stage *)

Section Stats.
Import PosixPath CdepAnalyzer.

Lemma total_size_empty : total_size ∅ = 0.
Proof. unfold total_size. apply map_fold_empty. Qed.

Lemma total_size_insert_None (m : gmap str (gset str)) (k : str) (s : gset str) :
  m !! k = None → total_size (<[k := s]> m) = size s + total_size m.
Proof. intros H. unfold total_size. rewrite map_fold_insert_L; [done| |done]. intros. lia. Qed.

Lemma total_size_lookup (m : gmap str (gset str)) (k : str) (s : gset str) :
  m !! k = Some s → total_size m = size s + total_size (delete k m).
Proof.
  intros H. unfold total_size. rewrite (map_fold_delete_L _ _ k s m); [done| |done].
  intros. lia.
Qed.

Lemma total_size_add_to (d : gmap str (gset str)) (k v : str) :
  total_size (add_to d k v)
  = total_size d + (if bool_decide (v ∈ get_set d k) then 0 else 1).
Proof.
  unfold add_to, get_set. destruct (d !! k) as [s|] eqn:E; simpl.
  - rewrite <- insert_delete_eq, total_size_insert_None by apply lookup_delete_eq.
    rewrite (total_size_lookup d k s E).
    case_bool_decide as Hv.
    + replace ({[v]} ∪ s) with s by set_solver. lia.
    + rewrite size_union by set_solver. rewrite size_singleton. lia.
  - rewrite total_size_insert_None by done.
    rewrite bool_decide_eq_false_2 by set_solver.
    replace ({[v]} ∪ ∅ : gset str) with ({[v]} : gset str) by set_solver.
    rewrite size_singleton. lia.
Qed.

Lemma no_empty_entry_add_to (d : gmap str (gset str)) (k v : str) :
  no_empty_entry d → no_empty_entry (add_to d k v).
Proof.
  intros Hd k' s. unfold add_to. destruct (decide (k' = k)) as [->|Hne].
  - rewrite lookup_insert_eq. intros [= <-]. set_solver.
  - rewrite lookup_insert_ne by done. apply Hd.
Qed.

Lemma size_le_total_size (m : gmap str (gset str)) :
  no_empty_entry m → size m ≤ total_size m.
Proof.
  induction m as [|k s m Hk IH] using map_ind; intros Hm.
  - unfold total_size. rewrite map_size_empty, map_fold_empty. lia.
  - rewrite map_size_insert_None, total_size_insert_None by done.
    assert (size s ≠ 0).
    { apply size_non_empty_iff. intros Hs. apply (Hm k s); [apply lookup_insert_eq|].
      by apply leibniz_equiv. }
    assert (size m ≤ total_size m); [|lia].
    apply IH. intros k' s' Hk'. apply (Hm k'). rewrite lookup_insert_ne; [done|]. 
    intros ->. congruence.
Qed.

Lemma resolve_work_counts (fs : list file_info) (sc : scanner) (w : str * include) :
  total_size (dependencies (resolve_work fs sc w))
    + total_size (unresolved (resolve_work fs sc w))
  ≤ total_size (dependencies sc) + total_size (unresolved sc) + 1
  ∧ (no_empty_entry (dependencies sc) → no_empty_entry (dependencies (resolve_work fs sc w))).
Proof.
  unfold resolve_work, resolve_include. cbv zeta.
  destruct (truthy _); simpl.
  - rewrite total_size_add_to. split; [case_bool_decide; lia|apply no_empty_entry_add_to].
  - destruct (is_system w.2); simpl; [split; [lia|done]|].
    rewrite total_size_add_to. split; [case_bool_decide; lia|done].
Qed.

Lemma resolve_fold_counts (fs : list file_info) (l : list (str * include)) (sc : scanner) :
  total_size (dependencies (foldl (resolve_work fs) sc l))
    + total_size (unresolved (foldl (resolve_work fs) sc l))
  ≤ total_size (dependencies sc) + total_size (unresolved sc) + length l
  ∧ (no_empty_entry (dependencies sc) →
     no_empty_entry (dependencies (foldl (resolve_work fs) sc l))).
Proof.
  revert sc. induction l as [|w l IH]; intros sc; simpl; [split; [lia|done]|].
  destruct (IH (resolve_work fs sc w)) as [I1 I2].
  destruct (resolve_work_counts fs sc w) as [S1 S2].
  split; [lia|auto].
Qed.

Lemma size_list_to_set_le (l : list str) : size (list_to_set l : gset str) ≤ length l.
Proof.
  induction l as [|x l IH].
  { rewrite list_to_set_nil, size_empty. simpl. lia. }
  rewrite list_to_set_cons, size_union_alt, size_singleton. simpl.
  assert (size (list_to_set l ∖ {[x]} : gset str) ≤ size (list_to_set l : gset str)).
  { apply subseteq_size. set_solver. }
  lia.
Qed.

Lemma filter_split_length (l : list file_info) :
  length (filter (fun f => is_header f = true) l)
  + length (filter (fun f => is_header f = false) l) = length l.
Proof.
  induction l as [|f l IH]; simpl; [done|].
  destruct (is_header f) eqn:E.
  - rewrite filter_cons_True, filter_cons_False by congruence. simpl. lia.
  - rewrite filter_cons_False, filter_cons_True by congruence. simpl. lia.
Qed.

Lemma parse_includes_rel_paths (sc : scanner) :
  rel_path <$> files (_parse_includes sc) = rel_path <$> files sc.
Proof.
  unfold _parse_includes. simpl. rewrite <- list_fmap_compose.
  apply list_fmap_ext. intros i info _. unfold parse_file. simpl.
  by destruct (content info).
Qed.

Lemma parse_includes_headers (sc : scanner) :
  is_header <$> files (_parse_includes sc) = is_header <$> files sc.
Proof.
  unfold _parse_includes. simpl. rewrite <- list_fmap_compose.
  apply list_fmap_ext. intros i info _. unfold parse_file. simpl.
  by destruct (content info).
Qed.

(** X3: the statistics of a scan are consistent: every discovered file is
    counted, headers and sources add up to the total, the number of files
    with dependencies is at most the number of files and at most the number
    of dependencies, and dependencies plus unresolved includes are at most
    the number of recorded includes. *)
Theorem get_stats_consistent (include_sys : bool)
    (discovered : list (str * option str * bool)) :
  let sc := scan (init include_sys discovered) in
  let st := get_stats sc in
  total_files st = length discovered
  ∧ (Z.of_nat (header_files st) + source_files st = Z.of_nat (total_files st))%Z
  ∧ source_files st = Z.of_nat (length (filter (fun f => is_header f = false) (files sc)))
  ∧ files_with_deps st ≤ total_files st
  ∧ files_with_deps st ≤ total_dependencies st
  ∧ total_dependencies st + unresolved_includes st ≤ length (include_work (files sc)).
Proof.
  cbv zeta. unfold scan, get_stats. simpl.
  set (parsed := _parse_includes (init include_sys discovered)).
  assert (Hp : parsed = Scanner include_sys (files parsed) ∅ ∅ ∅) by done.
  rewrite resolve_dependencies_files.
  assert (Hne : no_empty_entry (dependencies (_resolve_dependencies parsed))
                ∧ total_size (dependencies (_resolve_dependencies parsed))
                  + total_size (unresolved (_resolve_dependencies parsed))
                  ≤ length (include_work (files parsed))).
  { rewrite resolve_dependencies_work.
    destruct (resolve_fold_counts (files parsed) (include_work (files parsed)) parsed)
      as [H1 H2].
    split.
    - apply H2. rewrite Hp. simpl. intros k s' Hk. by rewrite lookup_empty in Hk.
    - assert (Hd0 : dependencies parsed = ∅) by done.
      assert (Hu0 : unresolved parsed = ∅) by done.
      rewrite Hd0, Hu0, total_size_empty in H1. lia. }
  destruct Hne as [Hne Hcount].
  split; [|split; [|split; [|split; [|split]]]].
  - unfold parsed, _parse_includes, init. simpl. by rewrite !length_fmap.
  - lia.
  - pose proof (filter_split_length (files parsed)). lia.
  - rewrite <- size_dom.
    etrans; [|etrans; [apply (size_list_to_set_le (rel_path <$> files parsed))|
                        by rewrite length_fmap]].
    apply subseteq_size. intros k Hk. apply elem_of_dom in Hk as [s' Hs].
    assert (Hex : ∃ t, t ∈ s').
    { apply set_choose_L. by apply (Hne k). }
    destruct Hex as [t Ht].
    assert (Hin : t ∈ get_set (dependencies (_resolve_dependencies parsed)) k).
    { unfold get_set. by rewrite Hs. }
    rewrite Hp in Hin. apply resolved_tables in Hin as ([k' inc] & Hw & Hk' & _).
    simpl in Hk'. subst k'. apply include_work_elem in Hw as (info & Hinfo & <- & _).
    apply elem_of_list_to_set, list_elem_of_fmap. eauto.
  - by apply size_le_total_size.
  - done.
Qed.

Lemma parse_match_not_prefixed (text : str) (raw : list include) (m : Re.match_obj) :
  Forall (fun inc => is_system inc = true →
                     startswith_any (path inc) SYSTEM_HEADER_PREFIXES = false) raw →
  Forall (fun inc => is_system inc = true →
                     startswith_any (path inc) SYSTEM_HEADER_PREFIXES = false)
    (parse_match false text raw m).
Proof.
  intros Hraw. unfold parse_match. cbv zeta.
  set (sys := bool_decide (default [] (Re.group text m 1) = lit "<")).
  set (p := default [] (Re.group text m 2)).
  destruct sys eqn:Hsys; destruct (startswith_any p SYSTEM_HEADER_PREFIXES) eqn:Hsw;
    cbn [andb negb]; try done;
    (apply Forall_app; split; [done|]; apply Forall_singleton; by simpl).
Qed.

(** X4: with [include_system] off, no angle-bracket include that the
    parser records starts with a system-header prefix. *)
Theorem parsed_angle_include_is_not_system_prefixed
    (discovered : list (str * option str * bool)) (info : file_info) (inc : include) :
  info ∈ files (_parse_includes (init false discovered)) →
  inc ∈ raw_includes info →
  is_system inc = true →
  startswith_any (path inc) SYSTEM_HEADER_PREFIXES = false.
Proof.
  unfold _parse_includes, init. simpl. rewrite <- list_fmap_compose.
  intros (f & -> & _)%list_elem_of_fmap. simpl.
  unfold parse_file, discovered_file. simpl.
  destruct f.1.2 as [text|]; simpl; [|by intros []%elem_of_nil].
  assert (Hall : ∀ ms raw,
    Forall (fun inc => is_system inc = true →
                       startswith_any (path inc) SYSTEM_HEADER_PREFIXES = false) raw →
    Forall (fun inc => is_system inc = true →
                       startswith_any (path inc) SYSTEM_HEADER_PREFIXES = false)
      (foldl (parse_match false text) raw ms)).
  { induction ms as [|m ms IH]; intros raw Hraw; simpl; [done|].
    apply IH. by apply parse_match_not_prefixed. }
  intros Hinc.
  pose proof (Hall (Re.finditer include_pattern text) [] (Forall_nil_2 _)) as HF.
  by apply (proj1 (Forall_forall _ _) HF).
Qed.

Lemma parsed_angle_include_is_not_system_prefixed_witness :
  startswith_any (lit "mylib/api.h") SYSTEM_HEADER_PREFIXES = false.
Proof.
  apply (parsed_angle_include_is_not_system_prefixed
           [(lit "main.c", Some (Scenarios.include_angle "mylib/api.h"
                                 ++ Scenarios.include_angle "stdio.h"), false)]
           (FileInfo (lit "main.c")
              (Some (Scenarios.include_angle "mylib/api.h" ++ Scenarios.include_angle "stdio.h"))
              false [Include (lit "mylib/api.h") true] 3)
           (Include (lit "mylib/api.h") true)).
  - vm_compute. constructor.
  - vm_compute. constructor.
  - reflexivity.
Defined.
End Stats.

(** ** Cycle detection, continued *)

Section StringOrder.
Import PosixPath CdepAnalyzer.

Lemma nat_of_ascii_inj (x y : ascii) : nat_of_ascii x = nat_of_ascii y → x = y.
Proof. intros H. rewrite <- (ascii_nat_embedding x), <- (ascii_nat_embedding y). by rewrite H. Qed.

Lemma str_ltb_irrefl (a : str) : str_ltb a a = false.
Proof.
  induction a as [|x a IH]; simpl; [done|].
  rewrite Nat.ltb_irrefl, IH. simpl. by rewrite andb_false_r.
Qed.

Lemma str_ltb_trans (a b c : str) :
  str_ltb a b = true → str_ltb b c = true → str_ltb a c = true.
Proof.
  revert b c. induction a as [|x a IH]; intros [|y b] [|z c]; simpl; try done.
  rewrite !orb_true_iff, !andb_true_iff, !bool_decide_eq_true, !Nat.ltb_lt.
  intros [H1|[-> H1]] [H2|[-> H2]].
  - left. lia.
  - by left.
  - by left.
  - right. split; [done|]. by eapply IH.
Qed.

Lemma str_ltb_total (a b : str) :
  str_ltb a b = false → str_ltb b a = false → a = b.
Proof.
  revert b. induction a as [|x a IH]; intros [|y b]; simpl; try done.
  rewrite !orb_false_iff, !andb_false_iff, !bool_decide_eq_false, !Nat.ltb_ge.
  intros [H1 H1'] [H2 H2'].
  assert (x = y) as -> by (apply nat_of_ascii_inj; lia).
  f_equal. apply IH; [by destruct H1'|by destruct H2'].
Qed.

Lemma fold_min_spec (l : list str) (m0 : str) :
  foldl (fun m y => if str_ltb y m then y else m) m0 l ∈ m0 :: l
  ∧ ∀ x, x ∈ m0 :: l →
         str_ltb x (foldl (fun m y => if str_ltb y m then y else m) m0 l) = false.
Proof.
  revert m0. induction l as [|y l IH]; intros m0; simpl.
  { split; [by left|]. intros x ->%list_elem_of_singleton. apply str_ltb_irrefl. }
  destruct (IH (if str_ltb y m0 then y else m0)) as [Hin Hle].
  set (r := foldl (fun m y0 => if str_ltb y0 m then y0 else m)
              (if str_ltb y m0 then y else m0) l) in *.
  split.
  - apply elem_of_cons in Hin as [Hin|Hin]; [|by do 2 right].
    rewrite Hin. destruct (str_ltb y m0); [right; by left|by left].
  - assert (Hm1 : str_ltb (if str_ltb y m0 then y else m0) r = false)
      by (apply Hle; by left).
    intros x Hx. apply elem_of_cons in Hx as [->|Hx];
      [|apply elem_of_cons in Hx as [->|Hx]].
    + destruct (str_ltb y m0) eqn:E; [|done].
      destruct (str_ltb m0 r) eqn:E2; [|done].
      by rewrite (str_ltb_trans y m0 r E E2) in Hm1.
    + destruct (str_ltb y m0) eqn:E; [done|].
      destruct (str_ltb y r) eqn:E2; [|done].
      destruct (str_ltb r m0) eqn:E3.
      * by rewrite (str_ltb_trans y r m0 E2 E3) in E.
      * rewrite (str_ltb_total m0 r Hm1 E3) in E. congruence.
    + apply Hle. by right.
Qed.

Lemma py_min_least (l : list str) (m : str) :
  py_min l = Some m → m ∈ l ∧ ∀ x, x ∈ l → str_ltb x m = false.
Proof.
  destruct l as [|x l]; simpl; [done|]. intros [= <-]. apply fold_min_spec.
Qed.

Lemma py_index_first (x : str) (l : list str) (i : nat) :
  py_index x l = Some i → l !! i = Some x ∧ ∀ j, j < i → l !! j ≠ Some x.
Proof.
  unfold py_index. destruct (list_find (fun y => y = x) l) as [[i' y]|] eqn:E; [|done].
  simpl. intros [= <-]. apply list_find_Some in E as (Hi & -> & Hfirst).
  split; [done|]. intros j Hj Hl. by apply (Hfirst j x).
Qed.

End StringOrder.

Section CycleSafety.
Import PosixPath CdepAnalyzer.
Variable deps : gmap str (gset str).
Variable U : gset str.
Hypothesis deps_in_U : ∀ s t, t ∈ get_set deps s → t ∈ U.
Local Abbreviation in_loop := (CdepAnalyzer.in_loop U).

Lemma py_index_elem (x : str) (l : list str) :
  x ∈ l → ∃ i, py_index x l = Some i ∧ l !! i = Some x.
Proof.
  intros Hx. unfold py_index.
  destruct (list_find (fun y => y = x) l) as [[i y]|] eqn:E.
  - apply list_find_Some in E as (Hi & -> & _). exists i. by split.
  - apply list_find_None in E. rewrite Forall_forall in E. by destruct (E x Hx).
Qed.

Lemma unvisited_shrinks (V V' : gset str) (node : str) :
  node ∈ U → node ∉ V → {[node]} ∪ V ⊆ V' → size (U ∖ V') < size (U ∖ V).
Proof.
  intros HnU HnV Hsub. apply subset_size. split; [set_solver|].
  intros Hback. assert (node ∈ U ∖ V') by set_solver. set_solver.
Qed.

Lemma dfs_ok (fuel : nat) (node : str) (st : dfs_state) :
  node ∈ U → node ∉ visited st → dfs_inv U st →
  size (U ∖ visited st) ≤ fuel →
  ∃ r, dfs fuel deps node st = Ok r ∧ dfs_post U node st r.
Proof.
  revert node st. induction fuel as [|fuel IH]; intros node st HnU Hnv Hinv Hfuel.
  { assert (size (U ∖ ({[node]} ∪ visited st)) < size (U ∖ visited st)); [|lia].
    by apply (unvisited_shrinks _ _ node). }
  simpl.
  assert (Hns : ∀ n, n ∈ elements (get_set deps node) → n ∈ U).
  { intros n Hn. apply elem_of_elements in Hn. by eapply deps_in_U. }
  assert (HL : in_loop node st
                 (DfsState ({[node]} ∪ visited st) ({[node]} ∪ rec_stack st)
                    (dfs_path st ++ [node]))).
  { destruct Hinv as (H1 & H2 & H3 & H4). split; [|done]. simpl.
    split; [|split; [|split]]; simpl.
    - intros x [Hx|Hx]%elem_of_union.
      + apply elem_of_singleton in Hx as ->. apply elem_of_app. right. by left.
      + apply elem_of_app. left. by apply H1.
    - set_solver.
    - intros x [Hx|Hx]%elem_of_app.
      + apply elem_of_union. right. by apply H3.
      + apply list_elem_of_singleton in Hx as ->. set_solver.
    - set_solver. }
  revert Hns HL.
  generalize (DfsState ({[node]} ∪ visited st) ({[node]} ∪ rec_stack st)
                (dfs_path st ++ [node])).
  generalize (elements (get_set deps node)).
  intros ns. induction ns as [|nb ns IHns]; intros st1 Hns HL.
  - destruct HL as ((H1 & H2 & H3 & H4) & Hpath & Hrec & Hvis).
    eexists. split; [done|]. unfold dfs_post. simpl.
    destruct Hinv as (I1 & I2 & I3 & I4).
    assert (Hrec' : rec_stack st1 ∖ {[node]} = rec_stack st).
    { rewrite Hrec. set_solver. }
    assert (Hpath' : removelast (dfs_path st1) = dfs_path st).
    { rewrite Hpath. apply removelast_last. }
    rewrite Hrec', Hpath'. split; [|split; [set_solver|split; [set_solver|done]]].
    split; [done|]. split; [set_solver|]. split; [|done].
    intros x Hx. apply Hvis. apply elem_of_union. right. by apply I3.
  - simpl. destruct HL as (Hinv1 & Hpath & Hrec & Hvis).
    assert (Hsize : size (U ∖ visited st1) ≤ fuel).
    { assert (size (U ∖ visited st1) < size (U ∖ visited st)); [|lia].
      by apply (unvisited_shrinks _ _ node). }
    case_bool_decide as Hnb.
    + destruct (IH nb st1) as (r & Hr & Hpost); [apply Hns; by left|done..|].
      rewrite Hr. simpl. destruct Hpost as (P1 & P2 & P3 & P4).
      destruct r as [c st2]. simpl in *. destruct c as [[|x c]|].
      * destruct P4 as (n & mid & Heq & _). done.
      * eexists. split; [done|]. unfold dfs_post. simpl.
        split; [done|]. split; [set_solver|]. split; [set_solver|done].
      * destruct P4 as [Q1 Q2]. apply IHns; [intros n Hn; apply Hns; by right|].
        split; [done|]. split; [congruence|]. split; [congruence|set_solver].
    + case_bool_decide as Hstack.
      * destruct Hinv1 as (H1 & H2 & H3 & H4).
        destruct (py_index_elem nb (dfs_path st1) (H1 nb Hstack)) as (i & Hi & Hlook).
        rewrite Hi. simpl. eexists. split; [done|]. unfold dfs_post. simpl.
        split; [done|]. split; [set_solver|]. split; [set_solver|].
        exists nb, (drop (S i) (dfs_path st1)). split.
        -- by rewrite (drop_S _ _ _ Hlook).
        -- split; [apply Hns; by left|]. intros x Hx. apply H4, H3.
           by apply (subseteq_drop (S i) (dfs_path st1)).
      * apply IHns; [intros n Hn; apply Hns; by right|done].
Qed.

Lemma elem_of_closed (n x : str) (mid : list str) :
  x ∈ n :: mid ++ [n] ↔ x = n ∨ x ∈ mid.
Proof.
  rewrite elem_of_cons, elem_of_app, list_elem_of_singleton. tauto.
Qed.

Lemma normalize_ok (c : list str) :
  closed_in U c → ∃ c', normalize c = Ok c' ∧ normal_cycle U c'.
Proof.
  intros (n & mid & -> & HnU & HmU). unfold normalize.
  assert (Hrl : removelast (n :: mid ++ [n]) = n :: mid).
  { change (n :: mid ++ [n]) with ((n :: mid) ++ [n]). apply removelast_last. }
  rewrite Hrl.
  destruct (py_min (n :: mid)) as [m|] eqn:Hmin; [|done]. simpl.
  apply py_min_least in Hmin as [Hm Hleast].
  assert (Hmc : m ∈ n :: mid ++ [n]).
  { change (n :: mid ++ [n]) with ((n :: mid) ++ [n]). apply elem_of_app. by left. }
  destruct (py_index_elem m _ Hmc) as (i & Hi & _). rewrite Hi. simpl.
  apply py_index_first in Hi as [Hlook Hfirst].
  assert (Hlt : i < length (n :: mid)).
  { apply list_elem_of_lookup in Hm as [j Hj].
    destruct (decide (i ≤ j)) as [Hle|Hgt]; [apply lookup_lt_Some in Hj; lia|].
    destruct (Hfirst j ltac:(lia)).
    change (n :: mid ++ [n]) with ((n :: mid) ++ [n]). by rewrite lookup_app_l
      by (by eapply lookup_lt_Some). }
  rewrite Hlook. simpl. eexists. split; [done|].
  assert (Hlook' : (n :: mid) !! i = Some m).
  { change (n :: mid ++ [n]) with ((n :: mid) ++ [n]) in Hlook.
    by rewrite lookup_app_l in Hlook. }
  exists m, (drop (S i) (n :: mid) ++ take i (n :: mid ++ [n])).
  assert (HU : ∀ x, x ∈ n :: mid ++ [n] → x ∈ U).
  { intros x [->|Hx]%elem_of_closed; auto. }
  assert (Hleast' : ∀ x, x ∈ n :: mid ++ [n] → str_ltb x m = false).
  { intros x [->|Hx]%elem_of_closed; apply Hleast; [by left|by right]. }
  split; [|split; [by apply HU|split]].
  - rewrite (drop_S _ _ _ Hlook'). simpl. by rewrite <- !app_assoc.
  - intros x [Hx|Hx]%elem_of_app; apply HU.
    + apply (subseteq_drop (S i) (n :: mid)) in Hx.
      change (n :: mid ++ [n]) with ((n :: mid) ++ [n]). apply elem_of_app. by left.
    + by apply (subseteq_take i) in Hx.
  - intros x [Hx|Hx]%elem_of_app; apply Hleast'.
    + apply (subseteq_drop (S i) (n :: mid)) in Hx.
      change (n :: mid ++ [n]) with ((n :: mid) ++ [n]). apply elem_of_app. by left.
    + by apply (subseteq_take i) in Hx.
Qed.

Lemma find_cycles_step_ok (fuel : nat) (acc : list (list str) * dfs_state) (node : str) :
  size U ≤ fuel → node ∈ U → dfs_inv U acc.2 → Forall (normal_cycle U) acc.1 →
  ∃ acc', find_cycles_step fuel deps acc node = Ok acc'
          ∧ dfs_inv U acc'.2 ∧ Forall (normal_cycle U) acc'.1.
Proof.
  intros Hfuel HnU Hinv Hall. destruct acc as [cycles st]. simpl in *.
  unfold find_cycles_step. case_bool_decide as Hv; [|by eexists].
  destruct (dfs_ok fuel node st) as ([r st'] & Hr & Hpost); [done..| |].
  { etrans; [|exact Hfuel]. apply subseteq_size. set_solver. }
  rewrite Hr. simpl. destruct Hpost as (P1 & _ & _ & P4). simpl in *.
  destruct r as [[|x c]|]; [by eexists|..|by eexists].
  destruct (normalize_ok _ P4) as (c' & Hc' & Hnorm). rewrite Hc'. simpl.
  case_bool_decide; eexists; (split; [done|]); simpl; (split; [done|]); [|done].
  apply Forall_app. split; [done|]. by apply Forall_singleton.
Qed.

Lemma find_cycles_loop_ok (fuel : nat) (nodes : list str)
    (acc : list (list str) * dfs_state) :
  size U ≤ fuel → (∀ n, n ∈ nodes → n ∈ U) → dfs_inv U acc.2 →
  Forall (normal_cycle U) acc.1 →
  ∃ acc', find_cycles_loop fuel deps nodes acc = Ok acc'
          ∧ Forall (normal_cycle U) acc'.1.
Proof.
  intros Hfuel. revert acc. induction nodes as [|node nodes IH]; intros acc Hn Hinv Hall.
  - simpl. by eexists.
  - simpl. destruct (find_cycles_step_ok fuel acc node) as (acc1 & H1 & Hinv1 & Hall1);
      [done|apply Hn; by left|done..|].
    rewrite H1. simpl. apply IH; [|done..]. intros n Hin. apply Hn. by right.
Qed.
End CycleSafety.

Section CycleResults.
Import PosixPath CdepAnalyzer.

Lemma scan_targets_scanned (include_sys : bool)
    (discovered : list (str * option str * bool)) (s t : str) :
  t ∈ get_set (dependencies (scan (init include_sys discovered))) s →
  t ∈ (rel_path <$> files (scan (init include_sys discovered))).
Proof.
  unfold scan. set (parsed := _parse_includes (init include_sys discovered)).
  assert (Hp : parsed = Scanner include_sys (files parsed) ∅ ∅ ∅) by done.
  rewrite resolve_dependencies_files. rewrite Hp at 1. intros Ht.
  apply resolved_tables in Ht as (w & _ & _ & Hres & _).
  by apply resolve_in_files in Hres.
Qed.

Lemma find_cycles_scanned (sc : scanner) :
  (∀ s t, t ∈ get_set (dependencies sc) s → t ∈ (rel_path <$> files sc)) →
  ∃ cycles, find_cycles sc = Ok cycles
            ∧ Forall (normal_cycle (list_to_set (rel_path <$> files sc))) cycles.
Proof.
  intros Hdeps. unfold find_cycles.
  destruct (find_cycles_loop_ok (dependencies sc) (list_to_set (rel_path <$> files sc))
              (fun s t Ht => proj2 (elem_of_list_to_set _ _) (Hdeps s t Ht))
              (S (length (files sc))) (rel_path <$> files sc) ([], DfsState ∅ ∅ []))
    as (acc & Hacc & Hall).
  - pose proof (size_list_to_set_le (rel_path <$> files sc)) as H.
    rewrite length_fmap in H. lia.
  - intros n Hn. by apply elem_of_list_to_set.
  - simpl. split; [by intros x Hx%not_elem_of_empty|]. split; [done|].
    split; [by intros x Hx%elem_of_nil|set_solver].
  - done.
  - rewrite Hacc. simpl. by eexists.
Qed.


(** X6: after a scan, the returned cycles are pairwise different, and each
    one starts and ends with the same file, consists of scanned files, and
    starts at a lexicographically smallest file of the cycle. *)
Theorem returned_cycles_are_normalized (include_sys : bool)
    (discovered : list (str * option str * bool)) (cycles : list (list str))
    (c : list str) :
  find_cycles (scan (init include_sys discovered)) = Ok cycles → c ∈ cycles →
  NoDup cycles
  ∧ ∃ n mid, c = n :: mid ++ [n]
             ∧ Forall (fun x => x ∈ (rel_path <$> files (scan (init include_sys discovered))))
                 (n :: mid)
             ∧ Forall (fun x => str_ltb x n = false) mid.
Proof.
  intros Hok Hc. split; [by eapply find_cycles_nodup|].
  destruct (find_cycles_scanned (scan (init include_sys discovered)))
    as (cycles' & Hc' & Hall); [apply scan_targets_scanned|].
  rewrite Hok in Hc'. simplify_eq. rewrite Forall_forall in Hall.
  destruct (Hall c Hc) as (n & mid & -> & HnU & HmU & Hmin).
  exists n, mid. split; [done|]. split.
  - apply Forall_cons. split; [by apply elem_of_list_to_set in HnU|].
    apply Forall_forall. intros x Hx. specialize (HmU x Hx).
    by apply elem_of_list_to_set in HmU.
  - by apply Forall_forall.
Qed.
Lemma returned_cycles_are_normalized_witness :
  ∃ n mid, [lit "a.h"; lit "b.h"; lit "a.h"] = n :: mid ++ [n]
           ∧ Forall (fun x => str_ltb x n = false) mid.
Proof.
  destruct (returned_cycles_are_normalized false Scenarios.stale_stack
              [[lit "a.h"; lit "b.h"; lit "a.h"];
               [lit "a.h"; lit "b.h"; lit "c.h"; lit "a.h"]]
              [lit "a.h"; lit "b.h"; lit "a.h"])
    as (_ & n & mid & Heq & _ & Hmin).
  - vm_compute. reflexivity.
  - left.
  - exists n, mid. split; [exact Heq | exact Hmin].
Defined.

End CycleResults.

Section Chains.
Import PosixPath CdepAnalyzer.
Variable deps : gmap str (gset str).

Lemma chain_cons (x y : str) (l : list str) :
  chain deps (x :: y :: l) ↔ y ∈ get_set deps x ∧ chain deps (y :: l).
Proof. done. Qed.

Lemma chain_app_l (l1 l2 : list str) : chain deps (l1 ++ l2) → chain deps l1.
Proof.
  induction l1 as [|x l1 IH]; [done|]. destruct l1 as [|y l1]; [done|].
  simpl. intros [H1 H2]. split; [done|]. by apply IH.
Qed.

Lemma chain_app_r (l1 l2 : list str) : chain deps (l1 ++ l2) → chain deps l2.
Proof.
  induction l1 as [|x l1 IH]; [done|]. intros H. apply IH.
  destruct l1 as [|y l1]; simpl in *.
  - by destruct l2 as [|z l2]; [|destruct H].
  - by destruct H.
Qed.

Lemma chain_glue (l1 l2 : list str) (a : str) :
  chain deps (l1 ++ [a]) → chain deps (a :: l2) → chain deps (l1 ++ a :: l2).
Proof.
  intros H1 H2. induction l1 as [|x l1 IH]; [done|].
  destruct l1 as [|y l1].
  - simpl in *. by destruct H1.
  - simpl in H1. destruct H1 as [H1 H1']. simpl. split; [done|]. by apply IH.
Qed.

Lemma chain_snoc (l : list str) (p x : str) :
  chain deps l → last l = Some p → x ∈ get_set deps p → chain deps (l ++ [x]).
Proof.
  intros Hl Hlast Hx. apply last_Some in Hlast as [l' ->].
  rewrite <- app_assoc. simpl. apply chain_glue; [done|]. by simpl.
Qed.

Lemma last_drop_lt (l : list str) (i : nat) :
  i < length l → last (drop i l) = last l.
Proof.
  intros Hi. rewrite <- (take_drop i l) at 2.
  destruct (drop i l) as [|x l'] eqn:E.
  - apply (f_equal length) in E. rewrite length_drop in E. simpl in E. lia.
  - by rewrite last_app_cons.
Qed.

Lemma chain_lookup (l : list str) (i : nat) (a b : str) :
  chain deps l → l !! i = Some a → l !! S i = Some b → b ∈ get_set deps a.
Proof.
  revert i. induction l as [|x l IH]; intros i Hl Ha Hb; [done|].
  destruct l as [|y l]; [done|]. destruct Hl as [H1 H2].
  destruct i as [|i]; simpl in *; [by simplify_eq|]. by eapply IH.
Qed.

End Chains.

Section FirstCycle.
Import PosixPath CdepAnalyzer.
Variable deps : gmap str (gset str).

Local Abbreviation clean_loop := (CdepAnalyzer.clean_loop deps).

Lemma dfs_from_clean (fuel : nat) (node : str) (st : dfs_state)
    (r : option (list str) * dfs_state) :
  clean deps st → node ∉ visited st → enters deps st node →
  dfs fuel deps node st = Ok r → dfs_clean_post deps st r.
Proof.
  revert node st r. induction fuel as [|fuel IH]; intros node st r Hc Hnv Hent; [done|].
  simpl.
  assert (Hns : ∀ n, n ∈ elements (get_set deps node) → n ∈ get_set deps node).
  { intros n Hn. by apply elem_of_elements in Hn. }
  assert (HL : clean_loop node st
                 (DfsState ({[node]} ∪ visited st) ({[node]} ∪ rec_stack st)
                    (dfs_path st ++ [node]))).
  { destruct Hc as (H1 & H2 & H3). split; [|done]. split; [|split]; simpl.
    - rewrite H1, list_to_set_app_L. simpl. set_solver.
    - unfold enters in Hent. destruct (last (dfs_path st)) as [p|] eqn:El.
      + by eapply chain_snoc.
      + apply last_None in El. by rewrite El.
    - set_solver. }
  revert Hns HL.
  generalize (DfsState ({[node]} ∪ visited st) ({[node]} ∪ rec_stack st)
                (dfs_path st ++ [node])).
  generalize (elements (get_set deps node)).
  intros ns. induction ns as [|nb ns IHns]; intros st1 Hns HL.
  - intros [= <-]. unfold dfs_clean_post. simpl.
    destruct HL as ((H1 & H2 & H3) & Hpath & Hrec & Hvis).
    destruct Hc as (C1 & C2 & C3).
    split; [|split; [|set_solver]].
    + rewrite Hrec. set_solver.
    + rewrite Hpath. apply removelast_last.
  - simpl. destruct HL as (Hc1 & Hpath & Hrec & Hvis).
    case_bool_decide as Hnb.
    + destruct (dfs fuel deps nb st1) as [r1| |] eqn:Hr1; simpl; [|done..].
      assert (Hpost : dfs_clean_post deps st1 r1).
      { apply (IH nb st1 r1); [done..| |done].
        unfold enters. rewrite Hpath, last_snoc. apply Hns. by left. }
      unfold dfs_clean_post in Hpost. destruct r1 as [c st2]. simpl in *.
      destruct c as [[|x c]|].
      * by destruct Hpost as [? _].
      * intros [= <-]. done.
      * destruct Hpost as (Q1 & Q2 & Q3).
        apply IHns; [intros n Hn; apply Hns; by right|].
        destruct Hc1 as (H1 & H2 & H3).
        split; [|split; [congruence|split; [congruence|set_solver]]].
        split; [congruence|]. split; [congruence|]. rewrite Q1. set_solver.
    + case_bool_decide as Hstack.
      * destruct Hc1 as (H1 & H2 & H3).
        assert (Hin : nb ∈ dfs_path st1).
        { rewrite H1 in Hstack. by apply elem_of_list_to_set in Hstack. }
        destruct (py_index_elem nb (dfs_path st1) Hin) as (i & Hi & Hlook).
        rewrite Hi. simpl. intros [= <-]. unfold dfs_clean_post. simpl.
        rewrite (drop_S _ _ _ Hlook). split; [done|]. split.
        -- simpl. by rewrite app_comm_cons, last_snoc.
        -- rewrite <- (drop_S _ _ _ Hlook).
           apply (chain_snoc _ _ node).
           ++ apply (chain_app_r _ (take i (dfs_path st1))). by rewrite take_drop.
           ++ rewrite last_drop_lt by (by eapply lookup_lt_Some).
              rewrite Hpath. apply last_snoc.
           ++ apply Hns. by left.
      * apply IHns; [intros n Hn; apply Hns; by right|done].
Qed.
End FirstCycle.

Section FirstCycleResult.
Import PosixPath CdepAnalyzer.
Variable deps : gmap str (gset str).

Local Abbreviation closed_chain := (CdepAnalyzer.closed_chain deps).
Local Abbreviation first_ok := (CdepAnalyzer.first_ok deps).

Lemma normalize_walk (c c' : list str) :
  normalize c = Ok c' → closed_chain c → closed_chain c'.
Proof.
  unfold normalize. intros Hn [Hhl Hch].
  destruct (py_min (removelast c)) as [m|] eqn:Hmin; [|done]. simpl in Hn.
  apply py_min_least in Hmin as [Hm _].
  destruct (py_index m c) as [i|] eqn:Hi; [|done]. simpl in Hn.
  apply py_index_first in Hi as [Hlook Hfirst].
  rewrite Hlook in Hn. simpl in Hn. simplify_eq.
  destruct c as [|z R _] using rev_ind; [by apply elem_of_nil in Hm|].
  rewrite removelast_last in *.
  destruct R as [|n mid]; [by apply elem_of_nil in Hm|].
  simpl in Hhl. rewrite app_comm_cons, last_snoc in Hhl. injection Hhl as <-.
  assert (Hlt : i < length (n :: mid)).
  { apply list_elem_of_lookup in Hm as [j Hj].
    destruct (decide (i ≤ j)) as [Hle|Hgt]; [apply lookup_lt_Some in Hj; lia|].
    destruct (Hfirst j ltac:(lia)). by rewrite lookup_app_l by (by eapply lookup_lt_Some). }
  assert (Hlook' : (n :: mid) !! i = Some m) by (by rewrite lookup_app_l in Hlook).
  rewrite take_app_le by lia.
  rewrite (drop_S _ _ _ Hlook'). split.
  { simpl. by rewrite !app_comm_cons, app_assoc, last_snoc. }
  destruct i as [|i].
  - simpl in *. simplify_eq. by rewrite drop_0.
  - assert (Hsplit : (n :: mid) ++ [n]
                     = (n :: take i mid) ++ (m :: drop (S i) mid) ++ [n]).
    { rewrite <- (take_drop (S i) (n :: mid)) at 1.
      rewrite (drop_S _ _ _ Hlook'). cbn [take drop]. by rewrite <- app_assoc. }
    rewrite Hsplit in Hch.
    change (chain deps ((m :: drop (S i) mid) ++ n :: (take i mid ++ [m]))).
    apply chain_glue.
    + by apply (chain_app_r deps (n :: take i mid)).
    + apply (chain_app_l deps _ (drop (S i) mid ++ [n])).
      replace ((n :: take i mid ++ [m]) ++ drop (S i) mid ++ [n])
        with ((n :: take i mid) ++ (m :: drop (S i) mid) ++ [n]); [done|].
      simpl. by rewrite <- app_assoc.
Qed.

Lemma find_cycles_step_first (fuel : nat) (acc acc' : list (list str) * dfs_state)
    (node : str) :
  find_cycles_step fuel deps acc node = Ok acc' → first_ok acc → first_ok acc'.
Proof.
  unfold find_cycles_step. destruct acc as [cycles st]. unfold CdepAnalyzer.first_ok. simpl.
  case_bool_decide as Hv; [|by intros [= <-]].
  destruct (dfs fuel deps node st) as [[r st']| |] eqn:Hr; simpl; [|done..].
  destruct cycles as [|c0 rest].
  - intros Hstep [Hpath Hrec].
    assert (Hpost : dfs_clean_post deps st (r, st')).
    { apply (dfs_from_clean deps fuel node st); [|done| |done].
      - split; [by rewrite Hpath, Hrec|]. split; [by rewrite Hpath|]. rewrite Hrec. set_solver.
      - unfold enters. by rewrite Hpath. }
    unfold dfs_clean_post in Hpost. simpl in Hpost.
    destruct r as [[|x c]|].
    + by destruct Hpost.
    + destruct (normalize (x :: c)) as [c'| |] eqn:Hn; simpl in Hstep; [|done..].
      simplify_eq. simpl. apply (normalize_walk _ _ Hn). by destruct Hpost as (_ & ? & ?).
    + simplify_eq. simpl. destruct Hpost as (Q1 & Q2 & _). split; congruence.
  - intros Hstep Hc0. destruct r as [[|x c]|]; try (by simplify_eq).
    destruct (normalize (x :: c)) as [c'| |]; simpl in Hstep; [|done..].
    case_bool_decide; by simplify_eq.
Qed.

Lemma find_cycles_loop_first (fuel : nat) (nodes : list str)
    (acc acc' : list (list str) * dfs_state) :
  find_cycles_loop fuel deps nodes acc = Ok acc' → first_ok acc → first_ok acc'.
Proof.
  revert acc. induction nodes as [|node nodes IH]; intros acc; simpl.
  - by intros [= <-].
  - destruct (find_cycles_step fuel deps acc node) as [acc1| |] eqn:E; simpl; [|done..].
    intros Hloop Hacc. apply (IH acc1 Hloop). by eapply find_cycles_step_first.
Qed.
End FirstCycleResult.

Section FirstCycleTheorem.
Import PosixPath CdepAnalyzer.

(** X7: for every scanner state, the first cycle that cycle detection
    returns is a closed walk of the include graph: it starts and ends with
    the same file and each file of it depends on the next. *)
Theorem first_cycle_is_closed_walk (sc : scanner) (c : list str) (rest : list (list str)) :
  find_cycles sc = Ok (c :: rest) → closed_walk sc c.
Proof.
  unfold find_cycles.
  destruct (find_cycles_loop _ _ _ _) as [acc| |] eqn:E; simpl; [|done..].
  intros [= Hacc].
  pose proof (find_cycles_loop_first _ _ _ _ _ E) as Hfirst.
  unfold CdepAnalyzer.first_ok in Hfirst. simpl in Hfirst. rewrite Hacc in Hfirst.
  destruct (Hfirst (conj eq_refl eq_refl)) as [Hhl Hch].
  split; [done|]. intros i a b Ha Hb. unfold is_edge. by eapply chain_lookup.
Qed.

Lemma first_cycle_is_closed_walk_witness :
  closed_walk (scan (init false Scenarios.stale_stack)) [lit "a.h"; lit "b.h"; lit "a.h"].
Proof.
  apply (first_cycle_is_closed_walk (scan (init false Scenarios.stale_stack))
           [lit "a.h"; lit "b.h"; lit "a.h"]
           [[lit "a.h"; lit "b.h"; lit "c.h"; lit "a.h"]]).
  vm_compute. reflexivity.
Defined.
End FirstCycleTheorem.
